(** * Tegra186 GPIO driver: a shallow embedding of drivers/gpio/gpio-tegra186.c

    The driver programs memory-mapped registers and calls into a few other
    kernel subsystems (pinctrl, the wake-event registry, the generic IRQ
    layer).  The embedding keeps that shape:

    - machine integers are [Z] with the wrap-around of the C type written out
      ([u32], [s32]);
    - the register windows [tegra_gpio->regs[rindex]] are a function from
      (window index, byte offset) to the 32-bit word stored there;
    - every driver function is a computation in a small state-and-log monad
      [M]: it transforms the register file and emits the register accesses
      and collaborator calls it performs, in program order;
    - collaborators whose code is outside this driver are a record of oracles
      giving their return codes. *)

From Stdlib Require Import ZArith List Bool Lia Sorted Ascii.
Import ListNotations.
Local Open Scope Z_scope.

(* ------------------------------------------------------------------ *)
(** ** Machine integers *)

(** Conversion to [u32] / [unsigned]. *)
Definition u32 (z : Z) : Z := z mod 2 ^ 32.

(** Conversion to [int] (two's complement, 32 bits). *)
Definition s32 (z : Z) : Z := (z + 2 ^ 31) mod 2 ^ 32 - 2 ^ 31.

(** [~x] on a 32-bit unsigned operand. *)
Definition not32 (x : Z) : Z := u32 (Z.lnot x).

(* ------------------------------------------------------------------ *)
(** ** Kernel headers used by the driver *)

Module Linux.

(** Modelled from the spec: include/linux/bitops.h is not among the
    sources; [BIT(n)] is the kernel's [1UL << n], the "exact bit position"
    of a named flag. *)
Definition BIT (n : Z) : Z := Z.shiftl 1 n.

(** Modelled from the spec: include/linux/kernel.h is not among the
    sources; [DIV_ROUND_UP(n, d)] is [((n) + (d) - 1) / (d)], here at the
    type [unsigned] of its use in the driver ("round up to the next whole
    millisecond"). *)
Definition DIV_ROUND_UP (n d : Z) : Z := u32 (n + d - 1) / d.

(** Modelled from the spec: the errno header is not among the sources; the
    "invalid-argument" and "busy" error numbers are the kernel's. *)
Definition EINVAL : Z := 22.
Definition EBUSY : Z := 16.

(** Modelled from the spec: include/linux/irq.h is not among the sources;
    the five trigger types (edge rising, edge falling, edge both, level
    high, level low) and the mask that selects them are the kernel's. *)
Definition IRQ_TYPE_EDGE_RISING : Z := 0x1.
Definition IRQ_TYPE_EDGE_FALLING : Z := 0x2.
Definition IRQ_TYPE_EDGE_BOTH : Z :=
  Z.lor IRQ_TYPE_EDGE_FALLING IRQ_TYPE_EDGE_RISING.
Definition IRQ_TYPE_LEVEL_HIGH : Z := 0x4.
Definition IRQ_TYPE_LEVEL_LOW : Z := 0x8.
Definition IRQ_TYPE_SENSE_MASK : Z := 0xf.

End Linux.
Import Linux.

Module DtBindings.

(** Modelled from the spec: include/dt-bindings/gpio/tegra186-gpio.h is not
    among the sources; the 32 ports A..Z, AA..FF are numbered 0..31 in that
    order and a pin identifier is [port * 8 + pin-in-port]. *)
Definition TEGRA_GPIO_BANK_ID_A : Z := 0.
Definition TEGRA_GPIO_BANK_ID_B : Z := 1.
Definition TEGRA_GPIO_BANK_ID_C : Z := 2.
Definition TEGRA_GPIO_BANK_ID_D : Z := 3.
Definition TEGRA_GPIO_BANK_ID_E : Z := 4.
Definition TEGRA_GPIO_BANK_ID_F : Z := 5.
Definition TEGRA_GPIO_BANK_ID_G : Z := 6.
Definition TEGRA_GPIO_BANK_ID_H : Z := 7.
Definition TEGRA_GPIO_BANK_ID_I : Z := 8.
Definition TEGRA_GPIO_BANK_ID_J : Z := 9.
Definition TEGRA_GPIO_BANK_ID_K : Z := 10.
Definition TEGRA_GPIO_BANK_ID_L : Z := 11.
Definition TEGRA_GPIO_BANK_ID_M : Z := 12.
Definition TEGRA_GPIO_BANK_ID_N : Z := 13.
Definition TEGRA_GPIO_BANK_ID_O : Z := 14.
Definition TEGRA_GPIO_BANK_ID_P : Z := 15.
Definition TEGRA_GPIO_BANK_ID_Q : Z := 16.
Definition TEGRA_GPIO_BANK_ID_R : Z := 17.
Definition TEGRA_GPIO_BANK_ID_S : Z := 18.
Definition TEGRA_GPIO_BANK_ID_T : Z := 19.
Definition TEGRA_GPIO_BANK_ID_U : Z := 20.
Definition TEGRA_GPIO_BANK_ID_V : Z := 21.
Definition TEGRA_GPIO_BANK_ID_W : Z := 22.
Definition TEGRA_GPIO_BANK_ID_X : Z := 23.
Definition TEGRA_GPIO_BANK_ID_Y : Z := 24.
Definition TEGRA_GPIO_BANK_ID_Z : Z := 25.
Definition TEGRA_GPIO_BANK_ID_AA : Z := 26.
Definition TEGRA_GPIO_BANK_ID_BB : Z := 27.
Definition TEGRA_GPIO_BANK_ID_CC : Z := 28.
Definition TEGRA_GPIO_BANK_ID_DD : Z := 29.
Definition TEGRA_GPIO_BANK_ID_EE : Z := 30.
Definition TEGRA_GPIO_BANK_ID_FF : Z := 31.

Definition TEGRA_GPIO (bank offset : Z) : Z := bank * 8 + offset.

End DtBindings.
Import DtBindings.

(* ------------------------------------------------------------------ *)
(** ** Register layout (the #defines of the driver) *)

Definition GPIO_ENB_CONFIG_REG : Z := 0x00.
Definition GPIO_ENB_BIT : Z := BIT 0.
Definition GPIO_INOUT_BIT : Z := BIT 1.
Definition GPIO_TRG_TYPE_BIT (x : Z) : Z := Z.land 0x3 x.
Definition GPIO_TRG_TYPE_BIT_OFFSET : Z := 0x2.
Definition GPIO_TRG_LVL_BIT : Z := BIT 4.
Definition GPIO_DEB_FUNC_BIT : Z := BIT 5.
Definition GPIO_INT_FUNC_BIT : Z := BIT 6.

Definition GPIO_DBC_THRES_REG : Z := 0x04.
Definition GPIO_INPUT_REG : Z := 0x08.
Definition GPIO_OUT_CTRL_REG : Z := 0x0c.
Definition GPIO_OUT_VAL_REG : Z := 0x10.
Definition GPIO_INT_CLEAR_REG : Z := 0x14.

Definition GPIO_REG_DIFF : Z := 0x20.

Definition GPIO_SCR_REG : Z := 0x04.
Definition GPIO_SCR_DIFF : Z := 0x08.

Definition GPIO_SCR_SEC_WEN : Z := BIT 28.
Definition GPIO_SCR_SEC_REN : Z := BIT 27.
Definition GPIO_SCR_SEC_G1R : Z := BIT 1.
Definition GPIO_SCR_SEC_G1W : Z := BIT 9.

Definition GPIO_INT_LVL_LEVEL_TRIGGER : Z := 0x1.
Definition GPIO_INT_LVL_SINGLE_EDGE_TRIGGER : Z := 0x2.
Definition GPIO_INT_LVL_BOTH_EDGE_TRIGGER : Z := 0x3.

Definition TRIGGER_LEVEL_LOW : Z := 0x0.
Definition TRIGGER_LEVEL_HIGH : Z := 0x1.

Definition GPIO_INT_STATUS_OFFSET : Z := 0x100.
Definition GPIO_STATUS_G1 : Z := 0x04.

Definition GPIO_FULL_ACCESS : Z :=
  Z.lor (Z.lor (Z.lor GPIO_SCR_SEC_WEN GPIO_SCR_SEC_REN) GPIO_SCR_SEC_G1R)
        GPIO_SCR_SEC_G1W.

Definition MAX_GPIO_CONTROLLERS : Z := 7.
Definition MAX_GPIO_PORTS : Z := 8.
Definition MAX_PORTS : Z := 32.
Definition MAX_PINS_PER_PORT : Z := 8.

Definition GPIO_PORT (g : Z) : Z := Z.shiftr g 3.
Definition GPIO_PIN (g : Z) : Z := Z.land g 0x7.

(* ------------------------------------------------------------------ *)
(** ** Static tables *)

(** Array store [a[i] = x].  C leaves an out-of-range store undefined; the
    model leaves the array as it is. *)
Fixpoint array_set {A : Type} (a : list A) (i : nat) (x : A) : list A :=
  match a, i with
  | [], _ => []
  | _ :: t, O => x :: t
  | h :: t, S j => h :: array_set t j x
  end.

(** An array given by designated initializers [[i] = x, ...]: as long as
    the largest index needs, unnamed slots hold [dflt]. *)
Definition designated {A : Type} (dflt : A) (inits : list (Z * A)) : list A :=
  let size := fold_right (fun ix n => Z.max (fst ix + 1) n) 0 inits in
  fold_left (fun a ix => array_set a (Z.to_nat (fst ix)) (snd ix))
            inits (repeat dflt (Z.to_nat size)).

Definition tegra186_gpio_wakes : list Z :=
  [ TEGRA_GPIO TEGRA_GPIO_BANK_ID_A 6;   (* wake0 *)
    TEGRA_GPIO TEGRA_GPIO_BANK_ID_A 2;   (* wake1 *)
    TEGRA_GPIO TEGRA_GPIO_BANK_ID_A 5;   (* wake2 *)
    TEGRA_GPIO TEGRA_GPIO_BANK_ID_D 3;   (* wake3 *)
    TEGRA_GPIO TEGRA_GPIO_BANK_ID_E 3;   (* wake4 *)
    TEGRA_GPIO TEGRA_GPIO_BANK_ID_G 3;   (* wake5 *)
    - EINVAL;                            (* wake6 *)
    TEGRA_GPIO TEGRA_GPIO_BANK_ID_B 3;   (* wake7 *)
    TEGRA_GPIO TEGRA_GPIO_BANK_ID_B 5;   (* wake8 *)
    TEGRA_GPIO TEGRA_GPIO_BANK_ID_C 0;   (* wake9 *)
    TEGRA_GPIO TEGRA_GPIO_BANK_ID_S 2;   (* wake10 *)
    TEGRA_GPIO TEGRA_GPIO_BANK_ID_H 2;   (* wake11 *)
    TEGRA_GPIO TEGRA_GPIO_BANK_ID_J 5;   (* wake12 *)
    TEGRA_GPIO TEGRA_GPIO_BANK_ID_J 6;   (* wake13 *)
    TEGRA_GPIO TEGRA_GPIO_BANK_ID_J 7;   (* wake14 *)
    TEGRA_GPIO TEGRA_GPIO_BANK_ID_K 0;   (* wake15 *)
    TEGRA_GPIO TEGRA_GPIO_BANK_ID_Q 1;   (* wake16 *)
    TEGRA_GPIO TEGRA_GPIO_BANK_ID_F 4;   (* wake17 *)
    TEGRA_GPIO TEGRA_GPIO_BANK_ID_M 5;   (* wake18 *)
    TEGRA_GPIO TEGRA_GPIO_BANK_ID_P 0;   (* wake19 *)
    TEGRA_GPIO TEGRA_GPIO_BANK_ID_P 2;   (* wake20 *)
    TEGRA_GPIO TEGRA_GPIO_BANK_ID_P 1;   (* wake21 *)
    TEGRA_GPIO TEGRA_GPIO_BANK_ID_O 3;   (* wake22 *)
    TEGRA_GPIO TEGRA_GPIO_BANK_ID_R 5;   (* wake23 *)
    - EINVAL;                            (* wake24 *)
    TEGRA_GPIO TEGRA_GPIO_BANK_ID_S 3;   (* wake25 *)
    TEGRA_GPIO TEGRA_GPIO_BANK_ID_S 4;   (* wake26 *)
    TEGRA_GPIO TEGRA_GPIO_BANK_ID_S 1;   (* wake27 *)
    TEGRA_GPIO TEGRA_GPIO_BANK_ID_F 2;   (* wake28 *)
    TEGRA_GPIO TEGRA_GPIO_BANK_ID_FF 0;  (* wake29 *)
    TEGRA_GPIO TEGRA_GPIO_BANK_ID_FF 4;  (* wake30 *)
    TEGRA_GPIO TEGRA_GPIO_BANK_ID_C 6;   (* wake31 *)
    TEGRA_GPIO TEGRA_GPIO_BANK_ID_W 2;   (* wake32 *)
    TEGRA_GPIO TEGRA_GPIO_BANK_ID_W 5;   (* wake33 *)
    TEGRA_GPIO TEGRA_GPIO_BANK_ID_W 1;   (* wake34 *)
    TEGRA_GPIO TEGRA_GPIO_BANK_ID_V 0;   (* wake35 *)
    TEGRA_GPIO TEGRA_GPIO_BANK_ID_V 1;   (* wake36 *)
    TEGRA_GPIO TEGRA_GPIO_BANK_ID_V 2;   (* wake37 *)
    TEGRA_GPIO TEGRA_GPIO_BANK_ID_V 3;   (* wake38 *)
    TEGRA_GPIO TEGRA_GPIO_BANK_ID_V 4;   (* wake39 *)
    TEGRA_GPIO TEGRA_GPIO_BANK_ID_V 5;   (* wake40 *)
    TEGRA_GPIO TEGRA_GPIO_BANK_ID_EE 0;  (* wake41 *)
    TEGRA_GPIO TEGRA_GPIO_BANK_ID_Z 1;   (* wake42 *)
    TEGRA_GPIO TEGRA_GPIO_BANK_ID_Z 3;   (* wake43 *)
    TEGRA_GPIO TEGRA_GPIO_BANK_ID_AA 0;  (* wake44 *)
    TEGRA_GPIO TEGRA_GPIO_BANK_ID_AA 1;  (* wake45 *)
    TEGRA_GPIO TEGRA_GPIO_BANK_ID_AA 2;  (* wake46 *)
    TEGRA_GPIO TEGRA_GPIO_BANK_ID_AA 3;  (* wake47 *)
    TEGRA_GPIO TEGRA_GPIO_BANK_ID_AA 4;  (* wake48 *)
    TEGRA_GPIO TEGRA_GPIO_BANK_ID_AA 5;  (* wake49 *)
    TEGRA_GPIO TEGRA_GPIO_BANK_ID_AA 6;  (* wake50 *)
    TEGRA_GPIO TEGRA_GPIO_BANK_ID_AA 7;  (* wake51 *)
    TEGRA_GPIO TEGRA_GPIO_BANK_ID_X 3;   (* wake52 *)
    TEGRA_GPIO TEGRA_GPIO_BANK_ID_X 7;   (* wake53 *)
    TEGRA_GPIO TEGRA_GPIO_BANK_ID_Y 0;   (* wake54 *)
    TEGRA_GPIO TEGRA_GPIO_BANK_ID_Y 1;   (* wake55 *)
    TEGRA_GPIO TEGRA_GPIO_BANK_ID_Y 2;   (* wake56 *)
    TEGRA_GPIO TEGRA_GPIO_BANK_ID_Y 5;   (* wake57 *)
    TEGRA_GPIO TEGRA_GPIO_BANK_ID_Y 6;   (* wake58 *)
    TEGRA_GPIO TEGRA_GPIO_BANK_ID_L 1;   (* wake59 *)
    TEGRA_GPIO TEGRA_GPIO_BANK_ID_L 3;   (* wake60 *)
    TEGRA_GPIO TEGRA_GPIO_BANK_ID_L 4;   (* wake61 *)
    TEGRA_GPIO TEGRA_GPIO_BANK_ID_L 5;   (* wake62 *)
    TEGRA_GPIO TEGRA_GPIO_BANK_ID_I 4;   (* wake63 *)
    TEGRA_GPIO TEGRA_GPIO_BANK_ID_I 6;   (* wake64 *)
    TEGRA_GPIO TEGRA_GPIO_BANK_ID_Z 0;   (* wake65 *)
    TEGRA_GPIO TEGRA_GPIO_BANK_ID_Z 2;   (* wake66 *)
    TEGRA_GPIO TEGRA_GPIO_BANK_ID_FF 1;  (* wake67 *)
    TEGRA_GPIO TEGRA_GPIO_BANK_ID_FF 2;  (* wake68 *)
    TEGRA_GPIO TEGRA_GPIO_BANK_ID_FF 3;  (* wake69 *)
    TEGRA_GPIO TEGRA_GPIO_BANK_ID_H 3;   (* wake70 *)
    TEGRA_GPIO TEGRA_GPIO_BANK_ID_P 5;   (* wake71 *)
    - EINVAL; - EINVAL; - EINVAL; - EINVAL;   (* wake72 .. wake75 *)
    - EINVAL; - EINVAL; - EINVAL; - EINVAL;   (* wake76 .. wake79 *)
    - EINVAL; - EINVAL; - EINVAL; - EINVAL;   (* wake80 .. wake83 *)
    - EINVAL; - EINVAL; - EINVAL; - EINVAL;   (* wake84 .. wake87 *)
    - EINVAL; - EINVAL; - EINVAL; - EINVAL;   (* wake88 .. wake91 *)
    - EINVAL; - EINVAL; - EINVAL; - EINVAL    (* wake92 .. wake95 *)
  ].

Record tegra_gpio_port_chip_info : Type := {
  cont_id : Z;      (* int *)
  cont_index : Z;   (* int *)
  valid_pins : Z;   (* int *)
  reg_index : Z;    (* int *)
  scr_offset : Z;   (* int *)
  reg_offset : Z;   (* u32 *)
}.

Definition TEGRA_GPIO_PORT_INFO (port cid cind npins : Z)
  : Z * tegra_gpio_port_chip_info :=
  (port, {| cont_id := cid;
            cont_index := cind;
            valid_pins := npins;
            reg_index := 0;
            scr_offset := cid * 0x1000 + cind * 0x40;
            reg_offset := u32 (0x10000 + cid * 0x1000 + cind * 0x200) |}).

Definition TEGRA_AON_GPIO_PORT_INFO (port cid cind npins : Z)
  : Z * tegra_gpio_port_chip_info :=
  (port, {| cont_id := cid;
            cont_index := cind;
            valid_pins := npins;
            reg_index := 1;
            scr_offset := cind * 0x40;
            reg_offset := u32 (0x1000 + cind * 0x200) |}).

(** What C puts in an array slot no initializer names. *)
Definition zero_port_chip_info : tegra_gpio_port_chip_info :=
  {| cont_id := 0; cont_index := 0; valid_pins := 0;
     reg_index := 0; scr_offset := 0; reg_offset := 0 |}.

Definition tegra_gpio_cinfo : list tegra_gpio_port_chip_info :=
  Eval cbv in designated zero_port_chip_info
  [ TEGRA_GPIO_PORT_INFO TEGRA_GPIO_BANK_ID_A 2 0 7;
    TEGRA_GPIO_PORT_INFO TEGRA_GPIO_BANK_ID_B 3 0 7;
    TEGRA_GPIO_PORT_INFO TEGRA_GPIO_BANK_ID_C 3 1 7;
    TEGRA_GPIO_PORT_INFO TEGRA_GPIO_BANK_ID_D 3 2 6;
    TEGRA_GPIO_PORT_INFO TEGRA_GPIO_BANK_ID_E 2 1 8;
    TEGRA_GPIO_PORT_INFO TEGRA_GPIO_BANK_ID_F 2 2 6;
    TEGRA_GPIO_PORT_INFO TEGRA_GPIO_BANK_ID_G 4 1 6;
    TEGRA_GPIO_PORT_INFO TEGRA_GPIO_BANK_ID_H 1 0 7;
    TEGRA_GPIO_PORT_INFO TEGRA_GPIO_BANK_ID_I 0 4 8;
    TEGRA_GPIO_PORT_INFO TEGRA_GPIO_BANK_ID_J 5 0 8;
    TEGRA_GPIO_PORT_INFO TEGRA_GPIO_BANK_ID_K 5 1 1;
    TEGRA_GPIO_PORT_INFO TEGRA_GPIO_BANK_ID_L 1 1 8;
    TEGRA_GPIO_PORT_INFO TEGRA_GPIO_BANK_ID_M 5 3 6;
    TEGRA_GPIO_PORT_INFO TEGRA_GPIO_BANK_ID_N 0 0 7;
    TEGRA_GPIO_PORT_INFO TEGRA_GPIO_BANK_ID_O 0 1 4;
    TEGRA_GPIO_PORT_INFO TEGRA_GPIO_BANK_ID_P 4 0 7;
    TEGRA_GPIO_PORT_INFO TEGRA_GPIO_BANK_ID_Q 0 2 6;
    TEGRA_GPIO_PORT_INFO TEGRA_GPIO_BANK_ID_R 0 5 6;
    TEGRA_AON_GPIO_PORT_INFO TEGRA_GPIO_BANK_ID_S 6 1 5;
    TEGRA_GPIO_PORT_INFO TEGRA_GPIO_BANK_ID_T 0 3 4;
    TEGRA_AON_GPIO_PORT_INFO TEGRA_GPIO_BANK_ID_U 6 2 6;
    TEGRA_AON_GPIO_PORT_INFO TEGRA_GPIO_BANK_ID_V 6 4 8;
    TEGRA_AON_GPIO_PORT_INFO TEGRA_GPIO_BANK_ID_W 6 5 8;
    TEGRA_GPIO_PORT_INFO TEGRA_GPIO_BANK_ID_X 1 2 8;
    TEGRA_GPIO_PORT_INFO TEGRA_GPIO_BANK_ID_Y 1 3 7;
    TEGRA_AON_GPIO_PORT_INFO TEGRA_GPIO_BANK_ID_Z 6 7 4;
    TEGRA_AON_GPIO_PORT_INFO TEGRA_GPIO_BANK_ID_AA 6 6 8;
    TEGRA_GPIO_PORT_INFO TEGRA_GPIO_BANK_ID_BB 2 3 2;
    TEGRA_GPIO_PORT_INFO TEGRA_GPIO_BANK_ID_CC 5 2 4;
    TEGRA_GPIO_PORT_INFO TEGRA_GPIO_BANK_ID_DD (-1) (-1) 0;
    TEGRA_AON_GPIO_PORT_INFO TEGRA_GPIO_BANK_ID_EE 6 3 3;
    TEGRA_AON_GPIO_PORT_INFO TEGRA_GPIO_BANK_ID_FF 6 0 5 ].

(** [tegra_gpio_cinfo[port]].  The driver never checks [port]; C leaves an
    index outside the array undefined, the model reads an all-zero entry
    there.  The theorems below quantify over the pins the chip registers,
    [0 <= gpio < ngpio], whose ports are all inside the array. *)
Definition cinfo (port : Z) : tegra_gpio_port_chip_info :=
  if port <? 0 then zero_port_chip_info
  else nth (Z.to_nat port) tegra_gpio_cinfo zero_port_chip_info.

(* ------------------------------------------------------------------ *)
(** ** Register file, events and the driver monad *)

(** The mapped windows [tegra_gpio->regs[rindex]]: window index and byte
    offset to the word stored there.  Every offset the driver forms is a
    multiple of four, so distinct offsets are distinct registers. *)
Definition regfile : Type := Z -> Z -> Z.

Definition regfile_set (r : regfile) (rindex addr val : Z) : regfile :=
  fun w a => if (w =? rindex) && (a =? addr) then val else r w a.

(** The generic IRQ layer's two flow handlers named by the driver. *)
Inductive flow_handler : Type := handle_level_irq | handle_edge_irq.

(** What a driver function does that the rest of the system can observe. *)
Inductive event : Type :=
| EvReadl (rindex addr : Z)                  (* __raw_readl *)
| EvWritel (val rindex addr : Z)             (* __raw_writel *)
| EvPinctrlRequestGpio (gpio : Z)
| EvPinctrlFreeGpio (gpio : Z)
| EvPinctrlGpioDirectionInput (gpio : Z)
| EvPinctrlGpioDirectionOutput (gpio : Z)
| EvPmIrqSetWake (wake enable : Z)           (* tegra_pm_irq_set_wake *)
| EvPmIrqSetWakeType (wake type : Z)         (* tegra_pm_irq_set_wake_type *)
| EvIrqSetHandlerLocked (hwirq : Z) (h : flow_handler)
| EvGenericHandleIrq (gpio : Z)              (* generic_handle_irq(gpio_to_irq(gpio)) *)
| EvChainedIrqEnter
| EvChainedIrqExit
| EvPrInfoWake (wake gpio : Z)               (* "gpio wake%d for gpio=%d" *)
| EvDevErrInput (ret : Z)                    (* "pinctrl input failed: %d" *)
| EvDevErrOutput (ret : Z)                   (* "pinctrl output failed: %d" *)
| EvPrErrWake (enable irq ret : Z).          (* "Failed gpio lp0 %s for irq=%d, error=%d" *)

(** A computation: from the register file to its result, the register file
    it leaves and the events it emitted, oldest first. *)
Definition M (A : Type) : Type := regfile -> A * regfile * list event.

Definition ret {A : Type} (a : A) : M A := fun r => (a, r, []).

Definition bind {A B : Type} (m : M A) (f : A -> M B) : M B :=
  fun r =>
    let '(a, r1, t1) := m r in
    let '(b, r2, t2) := f a r1 in
    (b, r2, t1 ++ t2).

Definition emit (e : event) : M unit := fun r => (tt, r, [e]).

Declare Scope drv_scope.
Delimit Scope drv_scope with drv.
Notation "x <- m ;; k" := (bind m (fun x => k))
  (at level 61, m at next level, right associativity) : drv_scope.
Notation "m ;; k" := (bind m (fun _ => k))
  (at level 61, right associativity) : drv_scope.
Local Open Scope drv_scope.

Definition result {A : Type} (x : A * regfile * list event) : A := fst (fst x).
Definition regs_after {A : Type} (x : A * regfile * list event) : regfile :=
  snd (fst x).
Definition events {A : Type} (x : A * regfile * list event) : list event :=
  snd x.

(** The word a load from a register returns. *)
Definition reg_value (r : regfile) (rindex addr : Z) : Z := u32 (r rindex addr).

Definition __raw_readl (rindex addr : Z) : M Z :=
  fun r => (reg_value r rindex addr, r, [EvReadl rindex addr]).

Definition __raw_writel (val rindex addr : Z) : M unit :=
  fun r => (tt, regfile_set r rindex addr (u32 val), [EvWritel val rindex addr]).

(** Collaborators outside the driver: the code each call returns, and what
    the handler installed on an interrupt line does to the registers when
    [generic_handle_irq] runs it. *)
Record collaborators : Type := {
  pinctrl_request_gpio_ret : Z -> Z;
  pinctrl_gpio_direction_input_ret : Z -> Z;
  pinctrl_gpio_direction_output_ret : Z -> Z;
  tegra_pm_irq_set_wake_ret : Z -> Z -> Z;
  irq_line_handler : Z -> regfile -> regfile;
}.

Record gpio_chip : Type := { base : Z; ngpio : Z }.

Definition tegra_gpio_chip : gpio_chip :=
  {| base := 0; ngpio := MAX_PORTS * MAX_PINS_PER_PORT |}.

Record irq_data : Type := { irq : Z; hwirq : Z }.

(* ------------------------------------------------------------------ *)
(** ** Register access *)

Definition tegra_gpio_readl (gpio reg : Z) : M Z :=
  let port := GPIO_PORT gpio in
  let pin := GPIO_PIN gpio in
  let addr := reg_offset (cinfo port) in
  let rindex := reg_index (cinfo port) in
  let addr := u32 (addr + u32 (u32 (GPIO_REG_DIFF * pin) + reg)) in
  __raw_readl rindex addr.

Definition tegra_gpio_writel (val gpio reg : Z) : M unit :=
  let port := GPIO_PORT gpio in
  let pin := GPIO_PIN gpio in
  let addr := reg_offset (cinfo port) in
  let rindex := reg_index (cinfo port) in
  let addr := u32 (addr + u32 (u32 (GPIO_REG_DIFF * pin) + reg)) in
  __raw_writel val rindex addr.

Definition tegra_gpio_update (gpio reg mask val : Z) : M unit :=
  let port := GPIO_PORT gpio in
  let pin := GPIO_PIN gpio in
  let addr := reg_offset (cinfo port) in
  let rindex := reg_index (cinfo port) in
  let addr := u32 (addr + u32 (u32 (GPIO_REG_DIFF * pin) + reg)) in
  rval <- __raw_readl rindex addr ;;
  let rval := Z.lor (Z.land rval (not32 mask)) (Z.land val mask) in
  __raw_writel rval rindex addr.

(** This function will return if the GPIO is accessible by CPU. *)
Definition is_gpio_accessible (offset : Z) : M bool :=
  let port := GPIO_PORT offset in
  let pin := GPIO_PIN offset in
  let scr := u32 (scr_offset (cinfo port)) in
  if pin >=? valid_pins (cinfo port) then ret false
  else
    let cid := cont_id (cinfo port) in
    if cid <? 0 then ret false
    else
      let rindex := reg_index (cinfo port) in
      val <- __raw_readl rindex (scr + pin * GPIO_SCR_DIFF + GPIO_SCR_REG) ;;
      if Z.land val GPIO_FULL_ACCESS =? GPIO_FULL_ACCESS then ret true
      else ret false.

(** The two [int *] results of [tegra_gpio_is_enabled]: what each pointee
    holds, [None] while nothing has been stored there. *)
Record enabled_out : Type := { is_gpio : option Z; is_input : option Z }.

Definition tegra_gpio_is_enabled (gpio : Z) (out : enabled_out)
  : M (Z * enabled_out) :=
  acc <- is_gpio_accessible (u32 gpio) ;;
  if acc : bool then
    val <- tegra_gpio_readl (u32 gpio) GPIO_ENB_CONFIG_REG ;;
    inp <- tegra_gpio_readl (u32 gpio) GPIO_OUT_CTRL_REG ;;
    ret (0, {| is_gpio := Some (s32 (Z.land val 0x1));
               is_input := Some (s32 inp) |})
  else ret (0, out).

Definition tegra_gpio_enable (gpio : Z) : M unit :=
  tegra_gpio_update (u32 gpio) GPIO_ENB_CONFIG_REG 0x1 0x1.

Definition tegra_gpio_disable (gpio : Z) : M unit :=
  tegra_gpio_update (u32 gpio) GPIO_ENB_CONFIG_REG 0x1 0x0.

(* ------------------------------------------------------------------ *)
(** ** The gpio_chip operations *)

Section Driver.

Variable env : collaborators.

Definition pinctrl_request_gpio (gpio : Z) : M Z :=
  emit (EvPinctrlRequestGpio gpio) ;; ret (pinctrl_request_gpio_ret env gpio).

Definition pinctrl_free_gpio (gpio : Z) : M unit :=
  emit (EvPinctrlFreeGpio gpio).

Definition pinctrl_gpio_direction_input (gpio : Z) : M Z :=
  emit (EvPinctrlGpioDirectionInput gpio) ;;
  ret (pinctrl_gpio_direction_input_ret env gpio).

Definition pinctrl_gpio_direction_output (gpio : Z) : M Z :=
  emit (EvPinctrlGpioDirectionOutput gpio) ;;
  ret (pinctrl_gpio_direction_output_ret env gpio).


Definition tegra_pm_irq_set_wake_type (wake type : Z) : M unit :=
  emit (EvPmIrqSetWakeType wake type).

Definition irq_set_handler_locked (d : irq_data) (h : flow_handler) : M unit :=
  emit (EvIrqSetHandlerLocked (hwirq d) h).

(** [generic_handle_irq(gpio_to_irq(gpio))]: the line is named by its pin
    (the linear IRQ domain of the probe maps pin [gpio] to one line); the
    handler installed on it runs synchronously. *)
Definition generic_handle_irq (gpio : Z) : M unit :=
  fun r => (tt, irq_line_handler env gpio r, [EvGenericHandleIrq gpio]).

Definition tegra_gpio_request (chip : gpio_chip) (offset : Z) : M Z :=
  accessible <- is_gpio_accessible offset ;;
  if accessible : bool then pinctrl_request_gpio (u32 (base chip + offset))
  else ret (- EBUSY).

Definition tegra_gpio_free (chip : gpio_chip) (offset : Z) : M unit :=
  pinctrl_free_gpio (u32 (base chip + offset)) ;;
  tegra_gpio_disable (s32 offset).

Definition tegra_gpio_set (chip : gpio_chip) (offset value : Z) : M unit :=
  let val := if value =? 0 then 0x0 else 0x1 in
  tegra_gpio_writel val offset GPIO_OUT_VAL_REG ;;
  tegra_gpio_writel 0 offset GPIO_OUT_CTRL_REG.

Definition tegra_gpio_get (chip : gpio_chip) (offset : Z) : M Z :=
  val <- tegra_gpio_readl offset GPIO_ENB_CONFIG_REG ;;
  if negb (Z.land val GPIO_INOUT_BIT =? 0) then
    v <- tegra_gpio_readl offset GPIO_OUT_VAL_REG ;; ret (s32 (Z.land v 0x1))
  else
    v <- tegra_gpio_readl offset GPIO_INPUT_REG ;; ret (s32 (Z.land v 0x1)).

Definition set_gpio_direction_mode (offset : Z) (mode : bool) : M unit :=
  val <- tegra_gpio_readl offset GPIO_ENB_CONFIG_REG ;;
  let val := if mode then Z.lor val GPIO_INOUT_BIT
             else Z.land val (not32 GPIO_INOUT_BIT) in
  tegra_gpio_writel val offset GPIO_ENB_CONFIG_REG.

Definition tegra_gpio_direction_input (chip : gpio_chip) (offset : Z) : M Z :=
  set_gpio_direction_mode offset false ;;
  tegra_gpio_enable (s32 offset) ;;
  ret_ <- pinctrl_gpio_direction_input (u32 (base chip + offset)) ;;
  (if ret_ <? 0 then emit (EvDevErrInput ret_) else ret tt) ;;
  ret 0.

Definition tegra_gpio_direction_output (chip : gpio_chip) (offset value : Z)
  : M Z :=
  tegra_gpio_set chip offset value ;;
  set_gpio_direction_mode offset true ;;
  tegra_gpio_enable (s32 offset) ;;
  ret_ <- pinctrl_gpio_direction_output (u32 (base chip + offset)) ;;
  (if ret_ <? 0 then emit (EvDevErrOutput ret_) else ret tt) ;;
  ret 0.

Definition tegra_gpio_set_debounce (chip : gpio_chip) (offset debounce : Z)
  : M Z :=
  let dbc_ms := DIV_ROUND_UP debounce 1000 in
  tegra_gpio_update offset GPIO_ENB_CONFIG_REG 0x1 0x1 ;;
  tegra_gpio_update offset GPIO_DEB_FUNC_BIT 0x5 0x1 ;;
  (* Update debounce threshold *)
  tegra_gpio_writel dbc_ms offset GPIO_DBC_THRES_REG ;;
  ret 0.

(* ------------------------------------------------------------------ *)
(** ** The irq_chip operations *)

Definition tegra_gpio_irq_ack (d : irq_data) : M unit :=
  let gpio := s32 (hwirq d) in
  tegra_gpio_writel 1 (u32 gpio) GPIO_INT_CLEAR_REG.

Definition tegra_gpio_irq_mask (d : irq_data) : M unit :=
  let gpio := s32 (hwirq d) in
  tegra_gpio_update (u32 gpio) GPIO_ENB_CONFIG_REG GPIO_INT_FUNC_BIT 0.

Definition tegra_gpio_irq_unmask (d : irq_data) : M unit :=
  let gpio := s32 (hwirq d) in
  tegra_gpio_update (u32 gpio) GPIO_ENB_CONFIG_REG GPIO_INT_FUNC_BIT
                    GPIO_INT_FUNC_BIT.

(** The scan of [tegra186_gpio_wakes] from slot [i] on. *)
Fixpoint gpio_to_wake_from (i : Z) (wakes : list Z) (gpio : Z) : M Z :=
  match wakes with
  | [] => ret (- EINVAL)
  | w :: rest =>
      if w =? gpio then emit (EvPrInfoWake i gpio) ;; ret i
      else gpio_to_wake_from (i + 1) rest gpio
  end.

Definition tegra186_gpio_to_wake (gpio : Z) : M Z :=
  gpio_to_wake_from 0 tegra186_gpio_wakes gpio.

(** The [switch] of [tegra_gpio_irq_set_type]: the pair
    [(trg_type, lvl_type)] a case leaves in the two locals (both start at
    0), [None] for the [default] case. *)
Definition irq_set_type_switch (sense : Z) : option (Z * Z) :=
  if sense =? IRQ_TYPE_EDGE_RISING then
    Some (TRIGGER_LEVEL_HIGH, GPIO_INT_LVL_SINGLE_EDGE_TRIGGER)
  else if sense =? IRQ_TYPE_EDGE_FALLING then
    Some (TRIGGER_LEVEL_LOW, GPIO_INT_LVL_SINGLE_EDGE_TRIGGER)
  else if sense =? IRQ_TYPE_EDGE_BOTH then
    Some (0, GPIO_INT_LVL_BOTH_EDGE_TRIGGER)
  else if sense =? IRQ_TYPE_LEVEL_HIGH then
    Some (TRIGGER_LEVEL_HIGH, GPIO_INT_LVL_LEVEL_TRIGGER)
  else if sense =? IRQ_TYPE_LEVEL_LOW then
    Some (TRIGGER_LEVEL_LOW, GPIO_INT_LVL_LEVEL_TRIGGER)
  else None.

Definition tegra_gpio_irq_set_type (d : irq_data) (type : Z) : M Z :=
  let gpio := s32 (hwirq d) in
  wake <- tegra186_gpio_to_wake (s32 (hwirq d)) ;;
  match irq_set_type_switch (Z.land type IRQ_TYPE_SENSE_MASK) with
  | None => ret (- EINVAL)
  | Some (trg_type, lvl_type) =>
      let trg_type := u32 (Z.shiftl trg_type 0x4) in
      let lvl_type := u32 (Z.shiftl lvl_type 0x2) in
      (* Clear and Program the values *)
      val <- tegra_gpio_readl (u32 gpio) GPIO_ENB_CONFIG_REG ;;
      let val :=
        Z.land val (not32 (Z.lor (Z.shiftl 0x3 GPIO_TRG_TYPE_BIT_OFFSET)
                                 GPIO_TRG_LVL_BIT)) in
      let val := Z.lor val (Z.lor trg_type lvl_type) in
      tegra_gpio_writel val (u32 gpio) GPIO_ENB_CONFIG_REG ;;
      tegra_gpio_enable gpio ;;
      (if negb (Z.land type (Z.lor IRQ_TYPE_LEVEL_LOW IRQ_TYPE_LEVEL_HIGH) =? 0)
       then irq_set_handler_locked d handle_level_irq
       else if negb (Z.land type (Z.lor IRQ_TYPE_EDGE_FALLING
                                        IRQ_TYPE_EDGE_RISING) =? 0)
       then irq_set_handler_locked d handle_edge_irq
       else ret tt) ;;
      (if wake >=? 0 then tegra_pm_irq_set_wake_type wake type else ret tt) ;;
      ret 0
  end.


(* ------------------------------------------------------------------ *)
(** ** The chained interrupt handler *)

Record tegra_gpio_controller : Type := { controller : Z; ctrl_irq : Z }.

(** [a[i] = x] with an [int] index. *)
Definition array_store {A : Type} (a : list A) (i : Z) (x : A) : list A :=
  if i <? 0 then a else array_set a (Z.to_nat i) x.

(** The loop over [tegra_gpio_cinfo] that fills [port_map], from entry [i]
    on. *)
Fixpoint fill_port_map (ctrl : Z) (i : Z)
         (table : list tegra_gpio_port_chip_info) (port_map : list Z)
  : list Z :=
  match table with
  | [] => port_map
  | e :: rest =>
      fill_port_map ctrl (i + 1) rest
        (if cont_id e =? ctrl then array_store port_map (cont_index e) i
         else port_map)
  end.

Definition port_map_of (ctrl : Z) : list Z :=
  fill_port_map ctrl 0 tegra_gpio_cinfo
                (repeat (-1) (Z.to_nat MAX_GPIO_PORTS)).

(** [for_each_set_bit(pin, &val, size)]: the set bits of [val] among the
    [size] lowest, from bit [pin] upwards. *)
Fixpoint for_each_set_bit (val pin : Z) (size : nat) (body : Z -> M unit)
  : M unit :=
  match size with
  | O => ret tt
  | S size' =>
      (if Z.testbit val pin then body pin else ret tt) ;;
      for_each_set_bit val (pin + 1) size' body
  end.

(** One turn of the loop over the controller's port slots. *)
Definition scan_port (port : Z) : M unit :=
  if port =? -1 then ret tt
  else
    let rindex := reg_index (cinfo port) in
    let addr := reg_offset (cinfo port) in
    val <- __raw_readl rindex
             (addr + GPIO_INT_STATUS_OFFSET + GPIO_STATUS_G1) ;;
    let gpio := u32 (port * 8) in
    for_each_set_bit val 0 8
      (fun pin => generic_handle_irq (u32 (gpio + pin))).

Fixpoint scan_ports (port_map : list Z) : M unit :=
  match port_map with
  | [] => ret tt
  | port :: rest => scan_port port ;; scan_ports rest
  end.

Definition tegra_gpio_irq_handler_desc (tg_cont : tegra_gpio_controller)
  : M unit :=
  let port_map := port_map_of (controller tg_cont) in
  emit EvChainedIrqEnter ;;
  scan_ports port_map ;;
  emit EvChainedIrqExit.

End Driver.

(* ------------------------------------------------------------------ *)
(** ** Vocabulary of the statements

    Names for the addresses, register fields, sample collaborators and
    observations that the theorems speak about. *)

(** Ranges of the fields of a table entry (checked entry by entry below):
    offsets stay far below 2^32, the window is 0 or 1, an absent port has
    no wired pin, a present one sits in a slot of one of the controllers. *)
Definition port_okb (e : tegra_gpio_port_chip_info) : bool :=
  (0 <=? reg_offset e) && (reg_offset e <? 2 ^ 20) &&
  ((reg_index e =? 0) || (reg_index e =? 1)) &&
  (0 <=? valid_pins e) && (valid_pins e <=? 8) &&
  (if cont_id e =? -1 then valid_pins e =? 0
   else (0 <=? cont_id e) && (cont_id e <? MAX_GPIO_CONTROLLERS) &&
        (0 <=? cont_index e) && (cont_index e <? MAX_GPIO_PORTS) &&
        (0 <=? scr_offset e) && (scr_offset e <? 2 ^ 20)).

Record port_ok (e : tegra_gpio_port_chip_info) : Prop := {
  ok_reg_offset : 0 <= reg_offset e < 2 ^ 20;
  ok_reg_index : reg_index e = 0 \/ reg_index e = 1;
  ok_valid_pins : 0 <= valid_pins e <= 8;
  ok_absent : cont_id e = -1 -> valid_pins e = 0;
  ok_present : cont_id e <> -1 ->
               0 <= cont_id e < MAX_GPIO_CONTROLLERS /\
               0 <= cont_index e < MAX_GPIO_PORTS /\
               0 <= scr_offset e < 2 ^ 20;
}.

(** Window and byte offset of a per-pin register, as the three accessors
    compute them. *)
Definition reg_window (gpio : Z) : Z := reg_index (cinfo (GPIO_PORT gpio)).

Definition reg_addr (gpio reg : Z) : Z :=
  u32 (reg_offset (cinfo (GPIO_PORT gpio))
       + u32 (u32 (GPIO_REG_DIFF * GPIO_PIN gpio) + reg)).

(** The word [tegra_gpio_update] stores: [(rval & ~mask) | (val & mask)]. *)
Definition update_word (old mask val : Z) : Z :=
  Z.lor (Z.land old (not32 mask)) (Z.land val mask).

(** Address of the security-configuration register the accessibility check
    loads. *)
Definition scr_addr (offset : Z) : Z :=
  u32 (scr_offset (cinfo (GPIO_PORT offset)))
  + GPIO_PIN offset * GPIO_SCR_DIFF + GPIO_SCR_REG.

(** Flag [flag] (one bit) is set in word [v]. *)
Definition bit_set (v flag : Z) : bool := negb (Z.land v flag =? 0).

(** Kinds of events. *)
Definition is_writel (e : event) : bool :=
  match e with EvWritel _ _ _ => true | _ => false end.

Definition is_register_access (e : event) : bool :=
  match e with EvReadl _ _ | EvWritel _ _ _ => true | _ => false end.

(** Collaborators that accept every call, with handlers that leave the
    registers alone. *)
Definition quiet_env : collaborators :=
  {| pinctrl_request_gpio_ret := fun _ => 0;
     pinctrl_gpio_direction_input_ret := fun _ => 0;
     pinctrl_gpio_direction_output_ret := fun _ => 0;
     tegra_pm_irq_set_wake_ret := fun _ _ => 0;
     irq_line_handler := fun _ r => r |}.

(** Collaborators whose pinctrl rejects every direction change. *)
Definition failing_pinctrl_env : collaborators :=
  {| pinctrl_request_gpio_ret := fun _ => 0;
     pinctrl_gpio_direction_input_ret := fun _ => - EINVAL;
     pinctrl_gpio_direction_output_ret := fun _ => - EINVAL;
     tegra_pm_irq_set_wake_ret := fun _ _ => 0;
     irq_line_handler := fun _ r => r |}.

(** The register programming of the two direction operations, up to the
    call into pinctrl. *)
Definition program_direction_input (offset : Z) : M unit :=
  set_gpio_direction_mode offset false ;; tegra_gpio_enable (s32 offset).

Definition program_direction_output (chip : gpio_chip) (offset value : Z)
  : M unit :=
  tegra_gpio_set chip offset value ;;
  set_gpio_direction_mode offset true ;;
  tegra_gpio_enable (s32 offset).

(** No pin is named by two slots of a wake table. *)
Definition wake_slot_uniqueb (wakes : list Z) : bool :=
  forallb (fun n =>
    forallb (fun m =>
      (nth n wakes (- EINVAL) <? 0) ||
      negb (nth n wakes (- EINVAL) =? nth m wakes (- EINVAL)) ||
      Nat.eqb n m) (seq 0 (length wakes))) (seq 0 (length wakes)).

(** The two fields of the configuration register that
    [tegra_gpio_irq_set_type] programs: the trigger kind, two bits at
    [GPIO_TRG_TYPE_BIT_OFFSET], and the polarity, bit [GPIO_TRG_LVL_BIT]. *)
Definition cnf_trigger_kind (v : Z) : Z :=
  GPIO_TRG_TYPE_BIT (Z.shiftr v GPIO_TRG_TYPE_BIT_OFFSET).

Definition cnf_polarity (v : Z) : Z := Z.land (Z.shiftr v 0x4) 1.

(** The word [tegra_gpio_irq_set_type] leaves in the configuration
    register that held [old]. *)
Definition trigger_word (old trg lvl : Z) : Z :=
  u32 (update_word
         (u32 (Z.lor (Z.land old
                        (not32 (Z.lor (Z.shiftl 0x3 GPIO_TRG_TYPE_BIT_OFFSET)
                                      GPIO_TRG_LVL_BIT)))
                     (Z.lor (u32 (Z.shiftl trg 0x4))
                            (u32 (Z.shiftl lvl 0x2)))))
         0x1 0x1).

(** The five trigger types the [switch] has a case for. *)
Definition supported_sense (sense : Z) : Prop :=
  sense = IRQ_TYPE_EDGE_RISING \/ sense = IRQ_TYPE_EDGE_FALLING \/
  sense = IRQ_TYPE_EDGE_BOTH \/ sense = IRQ_TYPE_LEVEL_HIGH \/
  sense = IRQ_TYPE_LEVEL_LOW.

(** The pins handed to [generic_handle_irq], in the order of the calls. *)
Definition dispatched (t : list event) : list Z :=
  flat_map (fun e => match e with EvGenericHandleIrq g => [g] | _ => [] end) t.

(** The bit indices [pin, pin + 1, ...], [size] of them. *)
Fixpoint bits_from (pin : Z) (size : nat) : list Z :=
  match size with
  | O => []
  | S size' => pin :: bits_from (pin + 1) size'
  end.

(** The pending-interrupt bitmap register of a port. *)
Definition int_status (r : regfile) (port : Z) : Z :=
  reg_value r (reg_index (cinfo port))
    (reg_offset (cinfo port) + GPIO_INT_STATUS_OFFSET + GPIO_STATUS_G1).

(** The pins of [port] whose bit is set in the bitmap [val], lowest bit
    first. *)
Definition pending_pins (port val : Z) : list Z :=
  map (fun bit => port * 8 + bit) (filter (Z.testbit val) (bits_from 0 8)).


(** The handlers of a list of pins, run in order on the register file. *)
Definition run_handlers (env : collaborators) (pins : list Z) (r : regfile)
  : regfile :=
  fold_left (fun r g => irq_line_handler env g r) pins r.

(** Every mapped slot of a port map, from slot [k] on, holds a port of
    controller [ctrl] whose index within the controller is the slot. *)
Fixpoint port_map_checkb (ctrl k : Z) (port_map : list Z) : bool :=
  match port_map with
  | [] => true
  | p :: rest =>
      ((p =? -1) ||
       ((0 <=? p) && (p <? MAX_PORTS) &&
        (cont_index (cinfo p) =? k) && (cont_id (cinfo p) =? ctrl))) &&
      port_map_checkb ctrl (k + 1) rest
  end.

(* ------------------------------------------------------------------ *)
(** ** The debugfs dump *)

(** What [dbg_gpio_show] puts into the seq_file: the header, then one line
    per pin with the two label characters, the pin-in-port and the six
    per-pin registers. *)
Inductive seq_line : Type :=
| SeqHeader
| SeqPin (x y : ascii) (pin : Z) (enb dbc inp out_ctrl out_val int_clr : Z).

(** [c++] on a [char]. *)
Definition char_incr (c : ascii) : ascii :=
  ascii_of_N (N.succ (N_of_ascii c)).

(** The label bookkeeping of one turn of the loop of [dbg_gpio_show], on
    the locals [x], [y] and [count]. *)
Definition dbg_label_step (i : Z) (st : ascii * ascii * Z)
  : ascii * ascii * Z :=
  let '(x, y, count) := st in
  let count := if count =? 8 then 0 else count in
  let '(x, y) :=
    if (count =? 0) && negb (Z.quot i 8 =? 0) then
      let x := if negb (Ascii.eqb x " ") then char_incr x else x in
      if Ascii.eqb y "Z" then ("A"%char, "A"%char) else (x, char_incr y)
    else (x, y) in
  (x, y, count + 1).

(** The loop of [dbg_gpio_show] from pin [i] on, [n] turns.  The six loads
    are arguments of one call, so C fixes no order among them; they are
    taken left to right. *)
Fixpoint dbg_gpio_show_loop (n : nat) (i : Z) (st : ascii * ascii * Z)
         (s : list seq_line) : M (list seq_line) :=
  match n with
  | O => ret s
  | S n' =>
      accessible <- is_gpio_accessible (u32 i) ;;
      let st := dbg_label_step i st in
      if accessible : bool then
        enb <- tegra_gpio_readl (u32 i) GPIO_ENB_CONFIG_REG ;;
        dbc <- tegra_gpio_readl (u32 i) GPIO_DBC_THRES_REG ;;
        inp <- tegra_gpio_readl (u32 i) GPIO_INPUT_REG ;;
        out_ctrl <- tegra_gpio_readl (u32 i) GPIO_OUT_CTRL_REG ;;
        out_val <- tegra_gpio_readl (u32 i) GPIO_OUT_VAL_REG ;;
        int_clr <- tegra_gpio_readl (u32 i) GPIO_INT_CLEAR_REG ;;
        dbg_gpio_show_loop n' (i + 1) st
          (s ++ [SeqPin (fst (fst st)) (snd (fst st)) (Z.rem i 8)
                        enb dbc inp out_ctrl out_val int_clr])
      else dbg_gpio_show_loop n' (i + 1) st s
  end.

Definition TOTAL_GPIOS : Z := 253.

Definition dbg_gpio_show (s : list seq_line) : M (Z * list seq_line) :=
  s' <- dbg_gpio_show_loop (Z.to_nat TOTAL_GPIOS) 0 (" "%char, "A"%char, 0)
          (s ++ [SeqHeader]) ;;
  ret (0, s').

(* ------------------------------------------------------------------ *)
(** ** Vocabulary of the further statements *)

(** The word a per-pin register of a pin holds. *)
Definition pin_reg (r : regfile) (gpio reg : Z) : Z :=
  reg_value r (reg_window gpio) (reg_addr gpio reg).

(** The word the security-configuration register of a pin holds. *)
Definition scr_reg (r : regfile) (gpio : Z) : Z :=
  reg_value r (reg_window gpio) (scr_addr gpio).

Definition is_set_handler (e : event) : bool :=
  match e with EvIrqSetHandlerLocked _ _ => true | _ => false end.

Definition is_wake_type (e : event) : bool :=
  match e with EvPmIrqSetWakeType _ _ => true | _ => false end.

Definition is_pinctrl (e : event) : bool :=
  match e with
  | EvPinctrlRequestGpio _ | EvPinctrlFreeGpio _
  | EvPinctrlGpioDirectionInput _ | EvPinctrlGpioDirectionOutput _ => true
  | _ => false
  end.

(** Handlers that leave the register file as it is. *)
Definition quiet_handlers (env : collaborators) : Prop :=
  forall g r, irq_line_handler env g r = r.

(** The ports a port map holds, in slot order. *)
Definition mapped_ports (port_map : list Z) : list Z :=
  filter (fun p => negb (p =? -1)) port_map.

(** The name of a port as the dump prints it: a blank and A..Z, then AA,
    BB, ... *)
Definition bank_label (port : Z) : ascii * ascii :=
  if port <? 26 then (" "%char, ascii_of_N (Z.to_N (65 + port)))
  else (ascii_of_N (Z.to_N (65 + (port - 26))),
        ascii_of_N (Z.to_N (65 + (port - 26)))).

(** The line of the dump for pin [i]. *)
Definition dbg_line (r : regfile) (i : Z) : seq_line :=
  SeqPin (fst (bank_label (i / 8))) (snd (bank_label (i / 8))) (i mod 8)
         (pin_reg r i GPIO_ENB_CONFIG_REG) (pin_reg r i GPIO_DBC_THRES_REG)
         (pin_reg r i GPIO_INPUT_REG) (pin_reg r i GPIO_OUT_CTRL_REG)
         (pin_reg r i GPIO_OUT_VAL_REG) (pin_reg r i GPIO_INT_CLEAR_REG).

(** The label bookkeeping alone, run over the pins [i, i + n). *)
Fixpoint dbg_label_states (n : nat) (i : Z) (st : ascii * ascii * Z)
  : list (ascii * ascii * Z) :=
  match n with
  | O => []
  | S n' => dbg_label_step i st
            :: dbg_label_states n' (i + 1) (dbg_label_step i st)
  end.

(** Every pin a wake table names is a wired pin of a present port. *)
Definition wake_pins_wiredb (wakes : list Z) : bool :=
  forallb (fun g =>
             (g <? 0) ||
             ((g <? ngpio tegra_gpio_chip) &&
              (g mod 8 <? valid_pins (cinfo (g / 8))) &&
              (0 <=? cont_id (cinfo (g / 8))))) wakes.

(** Slot [k] of a port map holds port [p] exactly when [p] is the port of
    controller [ctrl] with index [k]. *)
Definition port_map_exactb (ctrl : Z) (port_map : list Z) : bool :=
  forallb (fun k =>
    forallb (fun p =>
      Bool.eqb (nth (Z.to_nat k) port_map (-1) =? p)
               ((cont_id (cinfo p) =? ctrl) && (cont_index (cinfo p) =? k)))
      (map Z.of_nat (seq 0 32)))
    (map Z.of_nat (seq 0 8)).

(** No security-configuration register of any port lies among the bytes
    [reg_offset .. reg_offset + 0x100] that the per-pin accesses of a port
    in the same window can reach. *)
Definition scr_apartb (p q : Z) : bool :=
  negb (reg_index (cinfo p) =? reg_index (cinfo q)) ||
  (u32 (scr_offset (cinfo q)) + 7 * GPIO_SCR_DIFF + GPIO_SCR_REG
   <? reg_offset (cinfo p)) ||
  (reg_offset (cinfo p) + 7 * GPIO_REG_DIFF + GPIO_REG_DIFF
   <? u32 (scr_offset (cinfo q))).

(** Two register files in which every pin's security-configuration
    register holds the same word. *)
Definition same_scr (r r' : regfile) : Prop :=
  forall g, 0 <= g < ngpio tegra_gpio_chip -> scr_reg r' g = scr_reg r g.


(** Every entry of a table carries a controller id from -1 to 6. *)
Definition cont_ids_boundedb (table : list tegra_gpio_port_chip_info) : bool :=
  forallb (fun e => (-1 <=? cont_id e) && (cont_id e <? MAX_GPIO_CONTROLLERS))
          table.

(** What one turn of the dump's loop adds to the seq_file, given the pin
    and the label locals after that turn's bookkeeping. *)
Definition dbg_entry (r : regfile) (e : Z * (ascii * ascii * Z))
  : list seq_line :=
  let '(i, st) := e in
  if result (is_gpio_accessible i r) then
    [SeqPin (fst (fst st)) (snd (fst st)) (Z.rem i 8)
            (pin_reg r i GPIO_ENB_CONFIG_REG) (pin_reg r i GPIO_DBC_THRES_REG)
            (pin_reg r i GPIO_INPUT_REG) (pin_reg r i GPIO_OUT_CTRL_REG)
            (pin_reg r i GPIO_OUT_VAL_REG) (pin_reg r i GPIO_INT_CLEAR_REG)]
  else [].

(** The label locals the bookkeeping should reach at pin [i]: the name of
    the pin's port, and the count of pins of that port seen so far. *)
Definition dbg_label_at (i : Z) : ascii * ascii * Z :=
  (fst (bank_label (i / 8)), snd (bank_label (i / 8)), i mod 8 + 1).

(* ------------------------------------------------------------------ *)
(** * Properties *)

(** ** Integers and bits *)

Lemma u32_small z : 0 <= z < 2 ^ 32 -> u32 z = z.
Proof. intros H. unfold u32. now apply Z.mod_small. Qed.

Lemma u32_range z : 0 <= u32 z < 2 ^ 32.
Proof. unfold u32. apply Z.mod_pos_bound. reflexivity. Qed.

Lemma u32_idem z : u32 (u32 z) = u32 z.
Proof. apply u32_small, u32_range. Qed.

Lemma u32_s32 z : u32 (s32 z) = u32 z.
Proof.
  unfold u32, s32.
  rewrite <- Zminus_mod_idemp_l, Zmod_mod, Zminus_mod_idemp_l.
  f_equal. lia.
Qed.

Lemma s32_small z : 0 <= z < 2 ^ 31 -> s32 z = z.
Proof. intros H. unfold s32. rewrite Z.mod_small; lia. Qed.

Lemma u32_testbit z n : 0 <= n < 32 -> Z.testbit (u32 z) n = Z.testbit z n.
Proof. intros H. unfold u32. apply Z.mod_pow2_bits_low. lia. Qed.

Lemma reg_value_range r w a : 0 <= reg_value r w a < 2 ^ 32.
Proof. apply u32_range. Qed.

Lemma GPIO_PORT_div g : GPIO_PORT g = g / 8.
Proof. unfold GPIO_PORT. now rewrite Z.shiftr_div_pow2. Qed.

Lemma GPIO_PIN_mod g : GPIO_PIN g = g mod 8.
Proof. unfold GPIO_PIN. change 7 with (Z.ones 3). now rewrite Z.land_ones. Qed.

(** A property of the numbers below [k], decided by running through them. *)
Lemma below_forallb (f : Z -> bool) (k : nat) :
  forallb f (map Z.of_nat (seq 0 k)) = true ->
  forall n, 0 <= n < Z.of_nat k -> f n = true.
Proof.
  intros H n Hn. rewrite forallb_forall in H. apply H.
  apply in_map_iff. exists (Z.to_nat n). split; [lia|].
  apply in_seq. lia.
Qed.

(** ** The topology table *)

Lemma port_okb_ok e : port_okb e = true -> port_ok e.
Proof.
  unfold port_okb. intros H.
  repeat (apply andb_prop in H; destruct H as [H ?]).
  destruct (Z.eqb_spec (cont_id e) (-1)) as [E|E].
  - constructor; try lia.
  - repeat match goal with
           | H : _ && _ = true |- _ => apply andb_prop in H; destruct H
           end.
    constructor; try lia.
Qed.

Lemma cinfo_ok p : 0 <= p < MAX_PORTS -> port_ok (cinfo p).
Proof.
  intros Hp. apply port_okb_ok.
  apply (below_forallb (fun p => port_okb (cinfo p)) 32); [reflexivity|].
  exact Hp.
Qed.

Lemma pin_split gpio :
  0 <= gpio < ngpio tegra_gpio_chip ->
  0 <= gpio / 8 < MAX_PORTS /\ 0 <= gpio mod 8 < 8.
Proof.
  change (ngpio tegra_gpio_chip) with 256. change MAX_PORTS with 32.
  intros H. split.
  - split; [apply Z.div_pos; lia | apply Z.div_lt_upper_bound; lia].
  - apply Z.mod_pos_bound. lia.
Qed.

(** ** Register addresses *)

Lemma tegra_gpio_readl_eq gpio reg r :
  tegra_gpio_readl gpio reg r =
  (reg_value r (reg_window gpio) (reg_addr gpio reg), r,
   [EvReadl (reg_window gpio) (reg_addr gpio reg)]).
Proof. reflexivity. Qed.

Lemma tegra_gpio_writel_eq val gpio reg r :
  tegra_gpio_writel val gpio reg r =
  (tt, regfile_set r (reg_window gpio) (reg_addr gpio reg) (u32 val),
   [EvWritel val (reg_window gpio) (reg_addr gpio reg)]).
Proof. reflexivity. Qed.

Lemma tegra_gpio_update_eq gpio reg mask val r :
  tegra_gpio_update gpio reg mask val r =
  let w := reg_window gpio in
  let a := reg_addr gpio reg in
  let new := update_word (reg_value r w a) mask val in
  (tt, regfile_set r w a (u32 new), [EvReadl w a; EvWritel new w a]).
Proof. reflexivity. Qed.

Lemma reg_addr_plain gpio reg :
  0 <= gpio < ngpio tegra_gpio_chip -> 0 <= reg < 2 ^ 31 ->
  reg_addr gpio reg =
  reg_offset (cinfo (gpio / 8)) + gpio mod 8 * GPIO_REG_DIFF + reg.
Proof.
  intros Hg Hr. destruct (pin_split gpio Hg) as [Hp Hpin].
  destruct (cinfo_ok _ Hp) as [Ho _ _ _ _].
  unfold reg_addr. rewrite GPIO_PORT_div, GPIO_PIN_mod.
  unfold GPIO_REG_DIFF in *.
  rewrite (u32_small (32 * _)) by lia.
  rewrite (u32_small (32 * _ + reg)) by lia.
  rewrite u32_small by lia. lia.
Qed.

Lemma reg_window_plain gpio : reg_window gpio = reg_index (cinfo (gpio / 8)).
Proof. unfold reg_window. now rewrite GPIO_PORT_div. Qed.

Lemma is_gpio_accessible_eq offset r :
  is_gpio_accessible offset r =
  if GPIO_PIN offset >=? valid_pins (cinfo (GPIO_PORT offset))
  then (false, r, [])
  else if cont_id (cinfo (GPIO_PORT offset)) <? 0 then (false, r, [])
  else (Z.land (reg_value r (reg_window offset) (scr_addr offset))
               GPIO_FULL_ACCESS =? GPIO_FULL_ACCESS,
        r, [EvReadl (reg_window offset) (scr_addr offset)]).
Proof.
  unfold is_gpio_accessible.
  destruct (_ >=? _); [reflexivity|].
  destruct (_ <? _); [reflexivity|].
  unfold bind, __raw_readl, reg_window, scr_addr.
  destruct (_ =? _); reflexivity.
Qed.

Lemma scr_addr_plain gpio :
  0 <= gpio < ngpio tegra_gpio_chip ->
  cont_id (cinfo (gpio / 8)) <> -1 ->
  scr_addr gpio =
  scr_offset (cinfo (gpio / 8)) + gpio mod 8 * GPIO_SCR_DIFF + GPIO_SCR_REG.
Proof.
  intros Hg Hc. destruct (pin_split gpio Hg) as [Hp Hpin].
  destruct (cinfo_ok _ Hp) as [_ _ _ _ Hs]. specialize (Hs Hc).
  unfold scr_addr. rewrite GPIO_PORT_div, GPIO_PIN_mod.
  rewrite u32_small by lia. reflexivity.
Qed.

(** C9. For every pin below the total pin count and every register offset,
    the three register accessors address window [reg_index] of the pin's
    port at byte [reg_offset + (pin mod 8) * 0x20 + register offset], and
    the accessibility check, when it consults the hardware, loads
    [scr_offset + (pin mod 8) * 0x08 + 0x04] in the same window. *)
Theorem register_address_translation gpio reg val mask r :
  0 <= gpio < ngpio tegra_gpio_chip ->
  0 <= reg < 2 ^ 31 ->
  let port := cinfo (gpio / 8) in
  let w := reg_index port in
  let a := reg_offset port + gpio mod 8 * 0x20 + reg in
  let s := scr_offset port + gpio mod 8 * 0x08 + 0x04 in
  tegra_gpio_readl gpio reg r = (reg_value r w a, r, [EvReadl w a]) /\
  tegra_gpio_writel val gpio reg r =
    (tt, regfile_set r w a (u32 val), [EvWritel val w a]) /\
  events (tegra_gpio_update gpio reg mask val r) =
    [EvReadl w a; EvWritel (update_word (reg_value r w a) mask val) w a] /\
  (gpio mod 8 < valid_pins port -> 0 <= cont_id port ->
   events (is_gpio_accessible gpio r) = [EvReadl w s]).
Proof.
  intros Hg Hr port w a s.
  pose proof (reg_addr_plain gpio reg Hg Hr) as Ha.
  pose proof (reg_window_plain gpio) as Hw.
  fold port in Ha, Hw. change GPIO_REG_DIFF with 0x20 in Ha.
  fold a in Ha. fold w in Hw.
  repeat split.
  - now rewrite tegra_gpio_readl_eq, Ha, Hw.
  - now rewrite tegra_gpio_writel_eq, Ha, Hw.
  - now rewrite tegra_gpio_update_eq, Ha, Hw.
  - intros Hv Hc. rewrite is_gpio_accessible_eq.
    rewrite GPIO_PORT_div, GPIO_PIN_mod. fold port.
    destruct (Z.geb_spec (gpio mod 8) (valid_pins port)); [lia|].
    destruct (Z.ltb_spec (cont_id port) 0); [lia|].
    rewrite Hw, scr_addr_plain by (fold port; lia). reflexivity.
Qed.

Lemma register_address_translation_witness :
  tegra_gpio_readl 18 GPIO_OUT_VAL_REG (fun _ _ => 0) =
    (0, (fun _ _ => 0), [EvReadl 0 (0x13200 + 2 * 0x20 + 0x10)]) /\
  events (is_gpio_accessible 18 (fun _ _ => 0)) =
    [EvReadl 0 (0x3040 + 2 * 0x08 + 0x04)].
Proof.
  assert (Hg : 0 <= 18 < ngpio tegra_gpio_chip) by (cbv; split; congruence).
  assert (Hr : 0 <= GPIO_OUT_VAL_REG < 2 ^ 31) by (cbv; split; congruence).
  destruct (register_address_translation 18 GPIO_OUT_VAL_REG 1 1
              (fun _ _ => 0) Hg Hr) as (Hread & _ & _ & Hscr).
  split.
  - exact Hread.
  - apply Hscr; cbv; congruence.
Defined.

(** ** Capability bits *)

Lemma land_BIT v k :
  0 <= k -> Z.land v (BIT k) = if Z.testbit v k then BIT k else 0.
Proof.
  intros Hk. unfold BIT. rewrite Z.shiftl_1_l.
  apply Z.bits_inj'. intros n Hn.
  rewrite Z.land_spec, Z.pow2_bits_eqb by assumption.
  destruct (Z.eqb_spec k n) as [->|Hkn].
  - destruct (Z.testbit v n); [|now rewrite Z.bits_0].
    rewrite Z.pow2_bits_eqb, Z.eqb_refl by assumption. reflexivity.
  - rewrite andb_false_r.
    destruct (Z.testbit v k); [|now rewrite Z.bits_0].
    rewrite Z.pow2_bits_eqb by assumption.
    symmetry. now apply Z.eqb_neq.
Qed.

Lemma bit_set_testbit v k : 0 <= k -> bit_set v (BIT k) = Z.testbit v k.
Proof.
  intros Hk. unfold bit_set. rewrite land_BIT by assumption.
  destruct (Z.testbit v k); [|reflexivity].
  unfold BIT. rewrite Z.shiftl_1_l.
  destruct (Z.eqb_spec (2 ^ k) 0) as [E|E]; [|reflexivity].
  pose proof (Z.pow_pos_nonneg 2 k). lia.
Qed.

Lemma full_access_bits n :
  0 <= n -> Z.testbit GPIO_FULL_ACCESS n = true ->
  n = 1 \/ n = 9 \/ n = 27 \/ n = 28.
Proof.
  intros Hn H.
  destruct (Z.lt_ge_cases n 29) as [Hlt|Hge].
  - assert (Hb : implb (Z.testbit GPIO_FULL_ACCESS n)
                   ((n =? 1) || (n =? 9) || (n =? 27) || (n =? 28)) = true).
    { apply (below_forallb
               (fun n => implb (Z.testbit GPIO_FULL_ACCESS n)
                  ((n =? 1) || (n =? 9) || (n =? 27) || (n =? 28))) 29);
        [reflexivity | lia]. }
    rewrite H in Hb. cbn [implb] in Hb.
    repeat (apply orb_prop in Hb; destruct Hb as [Hb|Hb]); lia.
  - rewrite Z.bits_above_log2 in H; [discriminate | cbv; congruence |].
    change (Z.log2 GPIO_FULL_ACCESS) with 28. lia.
Qed.

Lemma full_access_iff v :
  (Z.land v GPIO_FULL_ACCESS =? GPIO_FULL_ACCESS) =
  bit_set v GPIO_SCR_SEC_WEN && bit_set v GPIO_SCR_SEC_REN &&
  bit_set v GPIO_SCR_SEC_G1R && bit_set v GPIO_SCR_SEC_G1W.
Proof.
  unfold GPIO_SCR_SEC_WEN, GPIO_SCR_SEC_REN, GPIO_SCR_SEC_G1R,
    GPIO_SCR_SEC_G1W.
  rewrite !bit_set_testbit by lia.
  apply eq_true_iff_eq. rewrite Z.eqb_eq, !andb_true_iff. split.
  - intros H.
    assert (Hb : forall k, Z.testbit GPIO_FULL_ACCESS k = true ->
                           Z.testbit v k = true).
    { intros k Hk. rewrite <- H, Z.land_spec in Hk.
      now apply andb_prop in Hk. }
    repeat split; apply Hb; reflexivity.
  - intros [[[H28 H27] H1] H9].
    apply Z.bits_inj'. intros n Hn. rewrite Z.land_spec.
    destruct (Z.testbit GPIO_FULL_ACCESS n) eqn:E;
      [|apply andb_false_r].
    destruct (full_access_bits n Hn E) as [-> | [-> | [-> | ->]]];
      rewrite andb_true_r; assumption.
Qed.

Lemma is_gpio_accessible_closed gpio r :
  0 <= gpio < ngpio tegra_gpio_chip ->
  gpio mod 8 >= valid_pins (cinfo (gpio / 8)) \/
  cont_id (cinfo (gpio / 8)) = -1 ->
  is_gpio_accessible gpio r = (false, r, []).
Proof.
  intros Hg H.
  destruct (pin_split gpio Hg) as [Hp Hpin].
  destruct (cinfo_ok _ Hp) as [_ _ _ Habs _].
  rewrite is_gpio_accessible_eq, GPIO_PORT_div, GPIO_PIN_mod.
  destruct (Z.geb_spec (gpio mod 8) (valid_pins (cinfo (gpio / 8))));
    [reflexivity|].
  destruct H as [H|H]; [lia|].
  destruct (Z.ltb_spec (cont_id (cinfo (gpio / 8))) 0); [reflexivity | lia].
Qed.

Lemma is_gpio_accessible_open gpio r :
  0 <= gpio < ngpio tegra_gpio_chip ->
  gpio mod 8 < valid_pins (cinfo (gpio / 8)) ->
  cont_id (cinfo (gpio / 8)) <> -1 ->
  let port := cinfo (gpio / 8) in
  let w := reg_index port in
  let s := scr_offset port + gpio mod 8 * GPIO_SCR_DIFF + GPIO_SCR_REG in
  let v := reg_value r w s in
  is_gpio_accessible gpio r =
  (bit_set v GPIO_SCR_SEC_WEN && bit_set v GPIO_SCR_SEC_REN &&
   bit_set v GPIO_SCR_SEC_G1R && bit_set v GPIO_SCR_SEC_G1W,
   r, [EvReadl w s]).
Proof.
  intros Hg Hv Hc port w s v.
  destruct (pin_split gpio Hg) as [Hp Hpin].
  destruct (cinfo_ok _ Hp) as [_ _ _ _ Hpres]. fold port in Hpres, Hv, Hc.
  rewrite is_gpio_accessible_eq, GPIO_PORT_div, GPIO_PIN_mod.
  fold port.
  destruct (Z.geb_spec (gpio mod 8) (valid_pins port)); [lia|].
  destruct (Z.ltb_spec (cont_id port) 0) as [Hneg|_];
    [specialize (Hpres Hc); lia|].
  rewrite reg_window_plain, scr_addr_plain by assumption.
  fold port w s v. now rewrite full_access_iff.
Qed.

(** C2. [is_gpio_accessible] answers false without a single register
    access when the pin-in-port is not below the port's wired-pin count or
    the port's controller id is the absent mark -1; otherwise it performs
    exactly one load, of the security-configuration register, and answers
    true exactly when write-enable, read-enable, group-read and group-write
    are all set in the word loaded. *)
Theorem accessibility_gate gpio r :
  0 <= gpio < ngpio tegra_gpio_chip ->
  let port := cinfo (gpio / 8) in
  let pin := gpio mod 8 in
  let w := reg_index port in
  let s := scr_offset port + pin * GPIO_SCR_DIFF + GPIO_SCR_REG in
  let v := reg_value r w s in
  (pin >= valid_pins port \/ cont_id port = -1 ->
   is_gpio_accessible gpio r = (false, r, [])) /\
  (pin < valid_pins port -> cont_id port <> -1 ->
   is_gpio_accessible gpio r =
   (bit_set v GPIO_SCR_SEC_WEN && bit_set v GPIO_SCR_SEC_REN &&
    bit_set v GPIO_SCR_SEC_G1R && bit_set v GPIO_SCR_SEC_G1W,
    r, [EvReadl w s])).
Proof.
  intros Hg port pin w s v. split.
  - now apply is_gpio_accessible_closed.
  - intros Hv Hc. now apply is_gpio_accessible_open.
Qed.

Lemma accessibility_gate_witness :
  is_gpio_accessible 7 (fun _ _ => 0xFFFFFFFF) = (false, fun _ _ => 0xFFFFFFFF, []) /\
  is_gpio_accessible 6 (fun _ _ => 0x18000202) =
    (true, fun _ _ => 0x18000202, [EvReadl 0 (0x2000 + 6 * 0x08 + 0x04)]).
Proof.
  assert (H7 : 0 <= 7 < ngpio tegra_gpio_chip) by (cbv; split; congruence).
  assert (H6 : 0 <= 6 < ngpio tegra_gpio_chip) by (cbv; split; congruence).
  split.
  - apply (accessibility_gate 7 (fun _ _ => 0xFFFFFFFF) H7).
    left. cbv. congruence.
  - apply (accessibility_gate 6 (fun _ _ => 0x18000202) H6);
      cbv; congruence.
Defined.

(** ** Running computations *)

Lemma triple_eta {A : Type} (x : A * regfile * list event) :
  x = (result x, regs_after x, events x).
Proof. now destruct x as [[a r] t]. Qed.

Lemma bind_eq {A B : Type} (m : M A) (f : A -> M B) r :
  bind m f r =
  (result (f (result (m r)) (regs_after (m r))),
   regs_after (f (result (m r)) (regs_after (m r))),
   events (m r) ++ events (f (result (m r)) (regs_after (m r)))).
Proof.
  unfold bind. destruct (m r) as [[a r1] t1]. cbn.
  now destruct (f a r1) as [[b r2] t2].
Qed.

Lemma result_bind {A B : Type} (m : M A) (f : A -> M B) r :
  result (bind m f r) = result (f (result (m r)) (regs_after (m r))).
Proof. now rewrite bind_eq. Qed.

Lemma regs_after_bind {A B : Type} (m : M A) (f : A -> M B) r :
  regs_after (bind m f r) = regs_after (f (result (m r)) (regs_after (m r))).
Proof. now rewrite bind_eq. Qed.

Lemma events_bind {A B : Type} (m : M A) (f : A -> M B) r :
  events (bind m f r) =
  events (m r) ++ events (f (result (m r)) (regs_after (m r))).
Proof. now rewrite bind_eq. Qed.

Lemma result_pair {A : Type} (a : A) r t : result (a, r, t) = a.
Proof. reflexivity. Qed.

Lemma regs_after_pair {A : Type} (a : A) r t : regs_after (a, r, t) = r.
Proof. reflexivity. Qed.

Lemma events_pair {A : Type} (a : A) r t : events (a, r, t) = t.
Proof. reflexivity. Qed.

Lemma ret_eq {A : Type} (a : A) r : ret a r = (a, r, []).
Proof. reflexivity. Qed.

Lemma emit_eq e r : emit e r = (tt, r, [e]).
Proof. reflexivity. Qed.

Lemma if_run {A : Type} (b : bool) (m1 m2 : M A) r :
  (if b then m1 else m2) r = if b then m1 r else m2 r.
Proof. now destruct b. Qed.

Create Rewrite HintDb drv.
#[local] Hint Rewrite @result_bind @regs_after_bind @events_bind
  @result_pair @regs_after_pair @events_pair @ret_eq emit_eq
  tegra_gpio_readl_eq tegra_gpio_writel_eq tegra_gpio_update_eq
  u32_s32 u32_idem app_nil_r : drv.

Ltac run := autorewrite with drv; cbv zeta.

(** ** The register file as storage *)

Lemma reg_value_set r w a v w' a' :
  reg_value (regfile_set r w a v) w' a' =
  if (w' =? w) && (a' =? a) then u32 v else reg_value r w' a'.
Proof. unfold reg_value, regfile_set. now destruct (_ && _). Qed.

Lemma reg_value_set_same r w a v :
  reg_value (regfile_set r w a v) w a = u32 v.
Proof. now rewrite reg_value_set, !Z.eqb_refl. Qed.

Lemma reg_value_set_other r w a v a' :
  a' <> a -> reg_value (regfile_set r w a v) w a' = reg_value r w a'.
Proof.
  intros H. rewrite reg_value_set.
  destruct (Z.eqb_spec a' a); [contradiction|]. now rewrite andb_false_r.
Qed.

(** ** Words after a read-modify-write *)

Lemma not32_testbit m n :
  0 <= n < 32 -> Z.testbit (not32 m) n = negb (Z.testbit m n).
Proof.
  intros H. unfold not32. rewrite u32_testbit by assumption.
  apply Z.lnot_spec. lia.
Qed.

Lemma update_word_testbit old mask val n :
  0 <= n < 32 ->
  Z.testbit (update_word old mask val) n =
  if Z.testbit mask n then Z.testbit val n else Z.testbit old n.
Proof.
  intros H. unfold update_word.
  rewrite Z.lor_spec, !Z.land_spec, not32_testbit by assumption.
  destruct (Z.testbit mask n), (Z.testbit val n), (Z.testbit old n);
    reflexivity.
Qed.

Lemma bit_set_u32 v k : 0 <= k < 32 -> bit_set (u32 v) (BIT k) = Z.testbit v k.
Proof.
  intros H. rewrite bit_set_testbit by lia. now apply u32_testbit.
Qed.





(** ** Line control *)

Lemma land_1_range v : 0 <= Z.land v 1 <= 1.
Proof.
  assert (E : Z.land v 1 = v mod 2) by (apply (Z.land_ones v 1); lia).
  rewrite E. pose proof (Z.mod_pos_bound v 2). lia.
Qed.

Lemma s32_land_1 v : s32 (Z.land v 1) = Z.land v 1.
Proof. pose proof (land_1_range v). apply s32_small. lia. Qed.

Lemma tegra_gpio_get_eq chip gpio r :
  result (tegra_gpio_get chip gpio r) =
  if bit_set (reg_value r (reg_window gpio)
                (reg_addr gpio GPIO_ENB_CONFIG_REG)) GPIO_INOUT_BIT
  then Z.land (reg_value r (reg_window gpio)
                 (reg_addr gpio GPIO_OUT_VAL_REG)) 1
  else Z.land (reg_value r (reg_window gpio)
                 (reg_addr gpio GPIO_INPUT_REG)) 1.
Proof.
  unfold tegra_gpio_get, bit_set. run.
  destruct (negb _); run; apply s32_land_1.
Qed.

(** C8. On every pin of the chip (so on every accessible one) whose
    direction bit says output, [tegra_gpio_set] with a non-zero value
    followed by [tegra_gpio_get] yields 1, whatever the input-status
    register (and every other register) holds; in general
    [tegra_gpio_get] yields the low bit of the output-value register when
    the direction bit says output and the low bit of the input-status
    register otherwise. *)
Theorem output_pin_reads_back chip gpio value r :
  0 <= gpio < ngpio tegra_gpio_chip ->
  let port := cinfo (gpio / 8) in
  let w := reg_index port in
  let pin_base := reg_offset port + gpio mod 8 * GPIO_REG_DIFF in
  let direction_is_output :=
    bit_set (reg_value r w (pin_base + GPIO_ENB_CONFIG_REG)) GPIO_INOUT_BIT in
  (direction_is_output = true -> value <> 0 ->
   result ((tegra_gpio_set chip gpio value ;; tegra_gpio_get chip gpio) r)
   = 1) /\
  result (tegra_gpio_get chip gpio r) =
    (if direction_is_output
     then Z.land (reg_value r w (pin_base + GPIO_OUT_VAL_REG)) 1
     else Z.land (reg_value r w (pin_base + GPIO_INPUT_REG)) 1).
Proof.
  intros Hg port w pin_base dir.
  assert (Ha : forall reg, 0 <= reg < 2 ^ 31 ->
                           reg_addr gpio reg = pin_base + reg).
  { intros reg Hr. now apply reg_addr_plain. }
  assert (Hcfg := Ha GPIO_ENB_CONFIG_REG ltac:(cbv; split; congruence)).
  assert (Hval := Ha GPIO_OUT_VAL_REG ltac:(cbv; split; congruence)).
  assert (Hctl := Ha GPIO_OUT_CTRL_REG ltac:(cbv; split; congruence)).
  assert (Hinp := Ha GPIO_INPUT_REG ltac:(cbv; split; congruence)).
  pose proof (reg_window_plain gpio) as Hw. fold port w in Hw.
  split.
  - intros Hdir Hvalue.
    rewrite result_bind, tegra_gpio_get_eq.
    unfold tegra_gpio_set. run.
    rewrite Hw, Hcfg, Hval, Hctl.
    unfold GPIO_ENB_CONFIG_REG, GPIO_OUT_VAL_REG, GPIO_OUT_CTRL_REG in *.
    rewrite !(reg_value_set_other _ _ _ _ (pin_base + 0)) by lia.
    fold dir. rewrite Hdir.
    rewrite reg_value_set_other by lia.
    rewrite reg_value_set_same.
    destruct (Z.eqb_spec value 0); [contradiction | reflexivity].
  - rewrite tegra_gpio_get_eq, Hw, Hcfg, Hval, Hinp. reflexivity.
Qed.

Lemma output_pin_reads_back_witness :
  let r : regfile := fun _ a => if a =? 0x13240 then 2 else 0xFFFFFFFF in
  result ((tegra_gpio_set tegra_gpio_chip 18 1 ;;
           tegra_gpio_get tegra_gpio_chip 18) r) = 1.
Proof.
  intros r.
  assert (Hg : 0 <= 18 < ngpio tegra_gpio_chip) by (cbv; split; congruence).
  destruct (output_pin_reads_back tegra_gpio_chip 18 1 r Hg) as [H _].
  apply H; [reflexivity | congruence].
Defined.

(** C10. [tegra_gpio_is_enabled] returns 0 for every pin.  When the pin is
    not accessible neither [*is_gpio] nor [*is_input] is stored to: both
    pointees hold what they held before the call (nothing, if the caller
    never initialised them), under the same return code 0 that an
    accessible pin gets together with the two values read. *)
Theorem is_enabled_returns_zero gpio out r :
  0 <= gpio < ngpio tegra_gpio_chip ->
  let x := tegra_gpio_is_enabled gpio out r in
  fst (result x) = 0 /\
  (result (is_gpio_accessible gpio r) = false -> snd (result x) = out) /\
  (result (is_gpio_accessible gpio r) = true ->
   snd (result x) =
   {| is_gpio := Some (Z.land (reg_value r (reg_window gpio)
                                 (reg_addr gpio GPIO_ENB_CONFIG_REG)) 1);
      is_input := Some (s32 (reg_value r (reg_window gpio)
                               (reg_addr gpio GPIO_OUT_CTRL_REG))) |}).
Proof.
  intros Hg x. subst x. unfold tegra_gpio_is_enabled.
  assert (Hu : u32 gpio = gpio).
  { apply u32_small. change (ngpio tegra_gpio_chip) with 256 in Hg. lia. }
  rewrite Hu.
  assert (Hr : regs_after (is_gpio_accessible gpio r) = r).
  { rewrite is_gpio_accessible_eq.
    destruct (_ >=? _); [reflexivity|]. now destruct (_ <? _). }
  rewrite result_bind, Hr.
  destruct (result (is_gpio_accessible gpio r)).
  - run. cbn [fst snd]. rewrite s32_land_1.
    repeat split; congruence.
  - run. cbn [fst snd]. repeat split; congruence.
Qed.

Lemma is_enabled_returns_zero_witness :
  result (tegra_gpio_is_enabled 7 {| is_gpio := None; is_input := None |}
            (fun _ _ => 0xFFFFFFFF)) =
  (0, {| is_gpio := None; is_input := None |}).
Proof.
  assert (Hg : 0 <= 7 < ngpio tegra_gpio_chip) by (cbv; split; congruence).
  destruct (is_enabled_returns_zero 7 {| is_gpio := None; is_input := None |}
              (fun _ _ => 0xFFFFFFFF) Hg) as (H0 & Hout & _).
  rewrite (surjective_pairing (result _)), H0, Hout; reflexivity.
Defined.

(** ** Direction changes and the pin-multiplexing collaborator *)

Lemma update_word_testbit_out old mask val n :
  0 <= n < 32 -> Z.testbit mask n = false ->
  Z.testbit (update_word old mask val) n = Z.testbit old n.
Proof. intros H E. now rewrite update_word_testbit, E. Qed.

Lemma update_word_testbit_in old mask val n :
  0 <= n < 32 -> Z.testbit mask n = true ->
  Z.testbit (update_word old mask val) n = Z.testbit val n.
Proof. intros H E. now rewrite update_word_testbit, E. Qed.

Lemma u32_pin gpio : 0 <= gpio < ngpio tegra_gpio_chip -> u32 gpio = gpio.
Proof.
  change (ngpio tegra_gpio_chip) with 256. intros H. apply u32_small. lia.
Qed.

Lemma program_direction_input_cfg gpio r :
  0 <= gpio < ngpio tegra_gpio_chip ->
  let cfg := reg_value (regs_after (program_direction_input gpio r))
               (reg_window gpio) (reg_addr gpio GPIO_ENB_CONFIG_REG) in
  bit_set cfg GPIO_INOUT_BIT = false /\ bit_set cfg GPIO_ENB_BIT = true.
Proof.
  intros Hg.
  unfold program_direction_input, set_gpio_direction_mode, tegra_gpio_enable.
  run. rewrite (u32_pin gpio Hg), !reg_value_set_same, !u32_idem.
  unfold GPIO_INOUT_BIT, GPIO_ENB_BIT.
  rewrite !bit_set_u32 by lia. split.
  - rewrite update_word_testbit_out, u32_testbit, Z.land_spec,
      not32_testbit by (lia || reflexivity).
    apply andb_false_r.
  - now rewrite update_word_testbit_in by (lia || reflexivity).
Qed.

Lemma program_direction_output_cfg chip gpio value r :
  0 <= gpio < ngpio tegra_gpio_chip ->
  let cfg := reg_value (regs_after (program_direction_output chip gpio value r))
               (reg_window gpio) (reg_addr gpio GPIO_ENB_CONFIG_REG) in
  bit_set cfg GPIO_INOUT_BIT = true /\ bit_set cfg GPIO_ENB_BIT = true.
Proof.
  unfold program_direction_output, tegra_gpio_set, set_gpio_direction_mode,
    tegra_gpio_enable.
  intros Hg.
  run. rewrite (u32_pin gpio Hg), !reg_value_set_same, !u32_idem.
  unfold GPIO_INOUT_BIT, GPIO_ENB_BIT.
  rewrite !bit_set_u32 by lia. split.
  - rewrite update_word_testbit_out, u32_testbit, Z.lor_spec
      by (lia || reflexivity).
    apply orb_true_r.
  - now rewrite update_word_testbit_in by (lia || reflexivity).
Qed.

(** C6 (as the driver has it). When pinctrl rejects the direction change,
    [tegra_gpio_direction_input] and [tegra_gpio_direction_output] log the
    failure and leave the registers as programmed (direction bit and enable
    bit stay as just written, nothing is stored after the call), and they
    return 0: the collaborator's error code goes to the log only. *)
Theorem direction_pinctrl_failure_logged_only env chip gpio value r :
  0 <= gpio < ngpio tegra_gpio_chip ->
  let line := u32 (base chip + gpio) in
  let port := cinfo (gpio / 8) in
  let w := reg_index port in
  let cfg := reg_offset port + gpio mod 8 * GPIO_REG_DIFF
             + GPIO_ENB_CONFIG_REG in
  (let err := pinctrl_gpio_direction_input_ret env line in
   let x := tegra_gpio_direction_input env chip gpio r in
   let programmed := program_direction_input gpio r in
   err < 0 ->
   result x = 0 /\
   events x = events programmed
              ++ [EvPinctrlGpioDirectionInput line; EvDevErrInput err] /\
   regs_after x = regs_after programmed /\
   bit_set (reg_value (regs_after x) w cfg) GPIO_INOUT_BIT = false /\
   bit_set (reg_value (regs_after x) w cfg) GPIO_ENB_BIT = true) /\
  (let err := pinctrl_gpio_direction_output_ret env line in
   let x := tegra_gpio_direction_output env chip gpio value r in
   let programmed := program_direction_output chip gpio value r in
   err < 0 ->
   result x = 0 /\
   events x = events programmed
              ++ [EvPinctrlGpioDirectionOutput line; EvDevErrOutput err] /\
   regs_after x = regs_after programmed /\
   bit_set (reg_value (regs_after x) w cfg) GPIO_INOUT_BIT = true /\
   bit_set (reg_value (regs_after x) w cfg) GPIO_ENB_BIT = true).
Proof.
  intros Hg line port w cfg.
  assert (Hcfg : reg_addr gpio GPIO_ENB_CONFIG_REG = cfg).
  { apply reg_addr_plain; [assumption | cbv; split; congruence]. }
  pose proof (reg_window_plain gpio) as Hw. fold port w in Hw.
  split.
  - intros err x programmed Herr.
    assert (Hregs : regs_after x = regs_after programmed).
    { subst x programmed.
      unfold tegra_gpio_direction_input, program_direction_input,
        pinctrl_gpio_direction_input.
      run. fold line err. now destruct (err <? 0). }
    rewrite Hregs. subst x programmed.
    destruct (program_direction_input_cfg gpio r Hg) as [Hio Hen].
    rewrite Hw, Hcfg in Hio, Hen.
    repeat split; try assumption.
    + unfold tegra_gpio_direction_input. now run.
    + unfold tegra_gpio_direction_input, program_direction_input,
        pinctrl_gpio_direction_input.
      run. fold line err.
      destruct (Z.ltb_spec err 0); [|lia].
      run. now rewrite <- !app_assoc.
  - intros err x programmed Herr.
    assert (Hregs : regs_after x = regs_after programmed).
    { subst x programmed.
      unfold tegra_gpio_direction_output, program_direction_output,
        pinctrl_gpio_direction_output.
      run. fold line err. now destruct (err <? 0). }
    rewrite Hregs. subst x programmed.
    destruct (program_direction_output_cfg chip gpio value r Hg) as [Hio Hen].
    rewrite Hw, Hcfg in Hio, Hen.
    repeat split; try assumption.
    + unfold tegra_gpio_direction_output. now run.
    + unfold tegra_gpio_direction_output, program_direction_output,
        pinctrl_gpio_direction_output.
      run. fold line err.
      destruct (Z.ltb_spec err 0); [|lia].
      run. now rewrite <- !app_assoc.
Qed.

Lemma direction_pinctrl_failure_logged_only_witness :
  let r : regfile := fun _ _ => 0 in
  result (tegra_gpio_direction_input failing_pinctrl_env tegra_gpio_chip 18 r)
  = 0 /\
  result (tegra_gpio_direction_output failing_pinctrl_env tegra_gpio_chip 18
            1 r) = 0.
Proof.
  intros r.
  assert (Hg : 0 <= 18 < ngpio tegra_gpio_chip) by (cbv; split; congruence).
  destruct (direction_pinctrl_failure_logged_only failing_pinctrl_env
              tegra_gpio_chip 18 1 r Hg) as [Hin Hout].
  split.
  - apply Hin. reflexivity.
  - apply Hout. reflexivity.
Defined.

(** C6 as stated fails: pinctrl rejects both direction changes of pin 18
    with -EINVAL, the driver logs that code, and both operations return 0
    to their caller. *)
Lemma direction_pinctrl_failure_not_returned :
  let r : regfile := fun _ _ => 0 in
  let env := failing_pinctrl_env in
  pinctrl_gpio_direction_input_ret env (u32 (base tegra_gpio_chip + 18))
  = - EINVAL /\
  pinctrl_gpio_direction_output_ret env (u32 (base tegra_gpio_chip + 18))
  = - EINVAL /\
  result (tegra_gpio_direction_input env tegra_gpio_chip 18 r) = 0 /\
  result (tegra_gpio_direction_output env tegra_gpio_chip 18 1 r) = 0 /\
  result (tegra_gpio_direction_input env tegra_gpio_chip 18 r) <> - EINVAL /\
  result (tegra_gpio_direction_output env tegra_gpio_chip 18 1 r)
  <> - EINVAL /\
  events (tegra_gpio_direction_input env tegra_gpio_chip 18 r) =
    [EvReadl 0 0x13240; EvWritel 0 0 0x13240;
     EvReadl 0 0x13240; EvWritel 1 0 0x13240;
     EvPinctrlGpioDirectionInput 18; EvDevErrInput (- EINVAL)] /\
  events (tegra_gpio_direction_output env tegra_gpio_chip 18 1 r) =
    [EvWritel 1 0 0x13250; EvWritel 0 0 0x1324C;
     EvReadl 0 0x13240; EvWritel 2 0 0x13240;
     EvReadl 0 0x13240; EvWritel 3 0 0x13240;
     EvPinctrlGpioDirectionOutput 18; EvDevErrOutput (- EINVAL)].
Proof.
  cbv zeta. repeat split; try (vm_compute; congruence).
Qed.

(** ** Debounce *)

(** C5, where the driver departs from it.  [tegra_gpio_set_debounce]
    returns 0, sets the enable bit of the pin's configuration register and
    stores [DIV_ROUND_UP(debounce, 1000)] in the debounce-threshold
    register (0 for 0, 1 for 1..1000, 2 for 1001..2000); but the
    debounce-function bit of the configuration register is left exactly as
    it was: the second read-modify-write passes [GPIO_DEB_FUNC_BIT] (0x20)
    as the register offset and 0x5 as the mask, so it lands 0x20 bytes
    further on, where it sets bit 0 and clears bit 2. *)
Theorem set_debounce_leaves_debounce_bit chip gpio debounce r :
  0 <= gpio < ngpio tegra_gpio_chip ->
  let port := cinfo (gpio / 8) in
  let w := reg_index port in
  let pin_base := reg_offset port + gpio mod 8 * GPIO_REG_DIFF in
  let x := tegra_gpio_set_debounce chip gpio debounce r in
  let cfg_before := reg_value r w (pin_base + GPIO_ENB_CONFIG_REG) in
  let cfg_after := reg_value (regs_after x) w (pin_base + GPIO_ENB_CONFIG_REG) in
  let next_before := reg_value r w (pin_base + GPIO_REG_DIFF) in
  let next_after := reg_value (regs_after x) w (pin_base + GPIO_REG_DIFF) in
  result x = 0 /\
  bit_set cfg_after GPIO_ENB_BIT = true /\
  bit_set cfg_after GPIO_DEB_FUNC_BIT = bit_set cfg_before GPIO_DEB_FUNC_BIT /\
  next_after = u32 (update_word next_before 0x5 0x1) /\
  reg_value (regs_after x) w (pin_base + GPIO_DBC_THRES_REG)
  = u32 (DIV_ROUND_UP debounce 1000) /\
  (debounce = 0 -> DIV_ROUND_UP debounce 1000 = 0) /\
  (1 <= debounce <= 1000 -> DIV_ROUND_UP debounce 1000 = 1) /\
  (1001 <= debounce <= 2000 -> DIV_ROUND_UP debounce 1000 = 2).
Proof.
  intros Hg port w pin_base x cfg_before cfg_after next_before next_after.
  assert (Ha : forall reg, 0 <= reg < 2 ^ 31 ->
                           reg_addr gpio reg = pin_base + reg).
  { intros reg Hr. now apply reg_addr_plain. }
  assert (Hcfg := Ha GPIO_ENB_CONFIG_REG ltac:(cbv; split; congruence)).
  assert (Hnext := Ha GPIO_DEB_FUNC_BIT ltac:(cbv; split; congruence)).
  assert (Hdbc := Ha GPIO_DBC_THRES_REG ltac:(cbv; split; congruence)).
  pose proof (reg_window_plain gpio) as Hw. fold port w in Hw.
  assert (Hregs : regs_after x =
    regfile_set
      (regfile_set
         (regfile_set r w (pin_base + GPIO_ENB_CONFIG_REG)
            (u32 (update_word cfg_before 1 1)))
         w (pin_base + GPIO_REG_DIFF)
         (u32 (update_word next_before 0x5 0x1)))
      w (pin_base + GPIO_DBC_THRES_REG) (u32 (DIV_ROUND_UP debounce 1000))).
  { subst x. unfold tegra_gpio_set_debounce. run.
    rewrite Hw, Hcfg, Hnext, Hdbc.
    change (pin_base + GPIO_DEB_FUNC_BIT) with (pin_base + GPIO_REG_DIFF).
    rewrite (reg_value_set_other _ _ _ _ (pin_base + GPIO_REG_DIFF))
      by (unfold GPIO_REG_DIFF, GPIO_ENB_CONFIG_REG; lia).
    reflexivity. }
  assert (Hcfg_after : cfg_after = u32 (update_word cfg_before 1 1)).
  { subst cfg_after. rewrite Hregs.
    rewrite !reg_value_set_other
      by (unfold GPIO_REG_DIFF, GPIO_ENB_CONFIG_REG, GPIO_DBC_THRES_REG; lia).
    now rewrite reg_value_set_same, u32_idem. }
  split; [subst x; unfold tegra_gpio_set_debounce; now run|].
  split.
  { rewrite Hcfg_after. unfold GPIO_ENB_BIT.
    rewrite bit_set_u32 by lia.
    now rewrite update_word_testbit_in by (lia || reflexivity). }
  split.
  { rewrite Hcfg_after. unfold GPIO_DEB_FUNC_BIT.
    rewrite bit_set_u32, bit_set_testbit by lia.
    now rewrite update_word_testbit_out by (lia || reflexivity). }
  split.
  { subst next_after. rewrite Hregs.
    rewrite reg_value_set_other
      by (unfold GPIO_REG_DIFF, GPIO_DBC_THRES_REG; lia).
    now rewrite reg_value_set_same, u32_idem. }
  split.
  { rewrite Hregs. now rewrite reg_value_set_same, u32_idem. }
  unfold DIV_ROUND_UP. repeat split; intros H.
  - subst debounce. reflexivity.
  - rewrite u32_small by lia. symmetry.
    apply Z.div_unique with (debounce - 1); lia.
  - rewrite u32_small by lia. symmetry.
    apply Z.div_unique with (debounce - 1001); lia.
Qed.

Lemma set_debounce_leaves_debounce_bit_witness :
  let r : regfile := fun _ _ => 0 in
  let x := tegra_gpio_set_debounce tegra_gpio_chip 0 1000 r in
  bit_set (reg_value (regs_after x) 0 0x12000) GPIO_DEB_FUNC_BIT = false /\
  reg_value (regs_after x) 0 0x12000 = 1 /\
  reg_value (regs_after x) 0 0x12020 = 1 /\
  reg_value (regs_after x) 0 0x12004 = 1 /\
  events x = [EvReadl 0 0x12000; EvWritel 1 0 0x12000;
              EvReadl 0 0x12020; EvWritel 1 0 0x12020;
              EvWritel 1 0 0x12004].
Proof.
  intros r x.
  assert (Hg : 0 <= 0 < ngpio tegra_gpio_chip) by (cbv; split; congruence).
  destruct (set_debounce_leaves_debounce_bit tegra_gpio_chip 0 1000 r Hg)
    as (_ & _ & Hbit & Hnext & Hdbc & _).
  split; [etransitivity; [exact Hbit | reflexivity]|].
  split; [reflexivity|].
  split; [etransitivity; [exact Hnext | reflexivity]|].
  split; [etransitivity; [exact Hdbc | reflexivity]|].
  reflexivity.
Defined.

(** ** The wake table *)

Lemma wake_slot_unique n m :
  (n < length tegra186_gpio_wakes)%nat ->
  (m < length tegra186_gpio_wakes)%nat ->
  0 <= nth n tegra186_gpio_wakes (- EINVAL) ->
  nth n tegra186_gpio_wakes (- EINVAL) = nth m tegra186_gpio_wakes (- EINVAL) ->
  n = m.
Proof.
  intros Hn Hm Hpos Heq.
  assert (H : wake_slot_uniqueb tegra186_gpio_wakes = true)
    by (vm_compute; reflexivity).
  unfold wake_slot_uniqueb in H. rewrite forallb_forall in H.
  specialize (H n ltac:(apply in_seq; lia)). rewrite forallb_forall in H.
  specialize (H m ltac:(apply in_seq; lia)).
  apply orb_prop in H. destruct H as [H|H]; [|now apply Nat.eqb_eq].
  apply orb_prop in H. destruct H as [H|H].
  - apply Z.ltb_lt in H. lia.
  - apply negb_true_iff, Z.eqb_neq in H. contradiction.
Qed.

Lemma gpio_to_wake_from_miss wakes i gpio r :
  ~ In gpio wakes -> gpio_to_wake_from i wakes gpio r = (- EINVAL, r, []).
Proof.
  revert i. induction wakes as [|w rest IH]; intros i Hnot; [reflexivity|].
  cbn [gpio_to_wake_from].
  destruct (Z.eqb_spec w gpio) as [E|E].
  - exfalso. apply Hnot. now left.
  - apply IH. intros Hin. apply Hnot. now right.
Qed.

Lemma gpio_to_wake_from_hit wakes i n gpio r :
  nth_error wakes n = Some gpio ->
  (forall m, (m < n)%nat -> nth_error wakes m <> Some gpio) ->
  gpio_to_wake_from i wakes gpio r =
  (i + Z.of_nat n, r, [EvPrInfoWake (i + Z.of_nat n) gpio]).
Proof.
  revert i n. induction wakes as [|w rest IH]; intros i n Hn Hfirst.
  - destruct n; discriminate.
  - cbn [gpio_to_wake_from]. destruct n as [|n].
    + cbn in Hn. injection Hn as ->. rewrite Z.eqb_refl.
      change (Z.of_nat 0) with 0. rewrite Z.add_0_r. reflexivity.
    + destruct (Z.eqb_spec w gpio) as [E|E].
      * exfalso. apply (Hfirst 0%nat); [lia|]. cbn. now rewrite E.
      * rewrite (IH (i + 1) n).
        -- replace (i + 1 + Z.of_nat n) with (i + Z.of_nat (S n)) by lia.
           reflexivity.
        -- exact Hn.
        -- intros m Hm. apply (Hfirst (S m)). lia.
Qed.

Lemma tegra186_gpio_to_wake_slot slot gpio r :
  0 <= slot < Z.of_nat (length tegra186_gpio_wakes) ->
  0 <= gpio ->
  nth (Z.to_nat slot) tegra186_gpio_wakes (- EINVAL) = gpio ->
  tegra186_gpio_to_wake gpio r = (slot, r, [EvPrInfoWake slot gpio]).
Proof.
  intros Hs Hg Hnth. unfold tegra186_gpio_to_wake.
  rewrite (gpio_to_wake_from_hit _ 0 (Z.to_nat slot)).
  - rewrite Z.add_0_l, Z2Nat.id by lia. reflexivity.
  - rewrite <- Hnth. apply nth_error_nth'. lia.
  - intros m Hm Hnm.
    assert (Hmn : m = Z.to_nat slot); [|lia].
    symmetry. apply wake_slot_unique; try lia.
    rewrite Hnth. symmetry. now apply nth_error_nth.
Qed.

(** ** Wake enable *)



(** ** Trigger type *)

Lemma cnf_polarity_testbit v : cnf_polarity v = Z.b2z (Z.testbit v 4).
Proof.
  unfold cnf_polarity.
  assert (E : forall x, Z.land x 1 = x mod 2)
    by (intros x; apply (Z.land_ones x 1); lia).
  rewrite E, <- Z.bit0_mod, Z.shiftr_spec by lia. reflexivity.
Qed.

Lemma cnf_trigger_kind_testbit v :
  cnf_trigger_kind v = Z.b2z (Z.testbit v 2) + 2 * Z.b2z (Z.testbit v 3).
Proof.
  unfold cnf_trigger_kind, GPIO_TRG_TYPE_BIT, GPIO_TRG_TYPE_BIT_OFFSET.
  set (y := Z.shiftr v 2).
  assert (E : Z.land 3 y = y mod 4).
  { rewrite Z.land_comm. apply (Z.land_ones y 2). lia. }
  assert (H2 : Z.testbit v 2 = Z.testbit y 0)
    by (subst y; now rewrite Z.shiftr_spec by lia).
  assert (H3 : Z.testbit v 3 = Z.testbit y 1)
    by (subst y; now rewrite Z.shiftr_spec by lia).
  rewrite E, H2, H3, !Z.testbit_spec' by lia.
  change (2 ^ 0) with 1. change (2 ^ 1) with 2. rewrite Z.div_1_r.
  pose proof (Z.div_mod y 2 ltac:(lia)).
  pose proof (Z.div_mod (y / 2) 2 ltac:(lia)).
  pose proof (Z.mod_pos_bound y 2 ltac:(lia)).
  pose proof (Z.mod_pos_bound (y / 2) 2 ltac:(lia)).
  symmetry. apply Z.mod_unique_pos with (y / 2 / 2); lia.
Qed.

Lemma trigger_word_testbit old trg lvl k :
  2 <= k <= 4 ->
  Z.testbit (trigger_word old trg lvl) k =
  Z.testbit (Z.shiftl trg 4) k || Z.testbit (Z.shiftl lvl 2) k.
Proof.
  intros Hk. unfold trigger_word.
  assert (Hm : Z.testbit 1 k = false).
  { apply Z.bits_above_log2; [lia|]. change (Z.log2 1) with 0. lia. }
  assert (Hc : Z.testbit (Z.lor (Z.shiftl 3 GPIO_TRG_TYPE_BIT_OFFSET)
                                GPIO_TRG_LVL_BIT) k = true).
  { assert (k = 2 \/ k = 3 \/ k = 4) as [-> | [-> | ->]] by lia;
      reflexivity. }
  rewrite u32_testbit, update_word_testbit_out, u32_testbit by (lia || exact Hm).
  rewrite !Z.lor_spec, Z.land_spec, not32_testbit, Hc, !u32_testbit by lia.
  now rewrite andb_false_r.
Qed.

Lemma trigger_word_fields old trg lvl :
  0 <= trg <= 1 -> 0 <= lvl <= 3 ->
  cnf_polarity (trigger_word old trg lvl) = trg /\
  cnf_trigger_kind (trigger_word old trg lvl) = lvl.
Proof.
  intros Ht Hl.
  rewrite cnf_polarity_testbit, cnf_trigger_kind_testbit.
  rewrite !trigger_word_testbit by lia.
  assert (trg = 0 \/ trg = 1) as [-> | ->] by lia;
    assert (lvl = 0 \/ lvl = 1 \/ lvl = 2 \/ lvl = 3)
      as [-> | [-> | [-> | ->]]] by lia;
    split; reflexivity.
Qed.

Lemma gpio_to_wake_from_quiet wakes i gpio r :
  regs_after (gpio_to_wake_from i wakes gpio r) = r /\
  filter is_register_access (events (gpio_to_wake_from i wakes gpio r)) = [].
Proof.
  revert i. induction wakes as [|w rest IH]; intros i; [now split|].
  cbn [gpio_to_wake_from]. destruct (w =? gpio); [now split | apply IH].
Qed.

Lemma irq_set_type_rejected d type r :
  irq_set_type_switch (Z.land type IRQ_TYPE_SENSE_MASK) = None ->
  let x := tegra_gpio_irq_set_type d type r in
  result x = - EINVAL /\ regs_after x = r /\
  filter is_register_access (events x) = [].
Proof.
  intros Hsw x. subst x. unfold tegra_gpio_irq_set_type. rewrite Hsw.
  destruct (gpio_to_wake_from_quiet tegra186_gpio_wakes 0 (s32 (hwirq d)) r)
    as [Hr He].
  fold (tegra186_gpio_to_wake (s32 (hwirq d))) in Hr, He.
  run. now rewrite Hr, He.
Qed.

Lemma irq_set_type_accepted d type r trg lvl :
  0 <= hwirq d < ngpio tegra_gpio_chip ->
  irq_set_type_switch (Z.land type IRQ_TYPE_SENSE_MASK) = Some (trg, lvl) ->
  let x := tegra_gpio_irq_set_type d type r in
  let w := reg_window (hwirq d) in
  let cfg := reg_addr (hwirq d) GPIO_ENB_CONFIG_REG in
  result x = 0 /\
  reg_value (regs_after x) w cfg = trigger_word (reg_value r w cfg) trg lvl.
Proof.
  intros Hd Hsw x w cfg. subst x.
  unfold tegra_gpio_irq_set_type. rewrite Hsw.
  assert (Hs : s32 (hwirq d) = hwirq d).
  { apply s32_small. change (ngpio tegra_gpio_chip) with 256 in Hd. lia. }
  destruct (gpio_to_wake_from_quiet tegra186_gpio_wakes 0 (hwirq d) r)
    as [Hr _].
  fold (tegra186_gpio_to_wake (hwirq d)) in Hr.
  unfold tegra_gpio_enable, irq_set_handler_locked,
    tegra_pm_irq_set_wake_type.
  rewrite Hs. run. rewrite Hr, (u32_pin _ Hd). fold w cfg.
  split; [reflexivity|].
  destruct (result _ >=? 0);
    destruct (negb (Z.land type (Z.lor IRQ_TYPE_LEVEL_LOW _) =? 0));
    try destruct (negb (Z.land type _ =? 0));
    run; rewrite !reg_value_set_same, !u32_idem; reflexivity.
Qed.

Lemma irq_set_type_switch_default sense :
  ~ supported_sense sense -> irq_set_type_switch sense = None.
Proof.
  unfold supported_sense, irq_set_type_switch. intros H.
  repeat match goal with
         | |- context [?a =? ?b] =>
             destruct (Z.eqb_spec a b); [exfalso; apply H; tauto|]
         end.
  reflexivity.
Qed.

(** C3. [tegra_gpio_irq_set_type] accepts the five trigger types and
    leaves in the pin's configuration register the polarity (bit 4) and
    trigger kind (two bits at offset 2) of the table: edge-rising (high,
    single-edge), edge-falling (low, single-edge), edge-both (both-edge;
    the polarity, which does not matter, is written low), level-high (high,
    level), level-low (low, level).  Any other type is rejected with
    -EINVAL, with the register file as it was and no register accessed. *)
Theorem set_type_programs_trigger_fields d type r :
  0 <= hwirq d < ngpio tegra_gpio_chip ->
  let sense := Z.land type IRQ_TYPE_SENSE_MASK in
  let x := tegra_gpio_irq_set_type d type r in
  let port := cinfo (hwirq d / 8) in
  let cfg := reg_value (regs_after x) (reg_index port)
               (reg_offset port + hwirq d mod 8 * GPIO_REG_DIFF
                + GPIO_ENB_CONFIG_REG) in
  (sense = IRQ_TYPE_EDGE_RISING ->
   result x = 0 /\ cnf_polarity cfg = TRIGGER_LEVEL_HIGH /\
   cnf_trigger_kind cfg = GPIO_INT_LVL_SINGLE_EDGE_TRIGGER) /\
  (sense = IRQ_TYPE_EDGE_FALLING ->
   result x = 0 /\ cnf_polarity cfg = TRIGGER_LEVEL_LOW /\
   cnf_trigger_kind cfg = GPIO_INT_LVL_SINGLE_EDGE_TRIGGER) /\
  (sense = IRQ_TYPE_EDGE_BOTH ->
   result x = 0 /\ cnf_polarity cfg = TRIGGER_LEVEL_LOW /\
   cnf_trigger_kind cfg = GPIO_INT_LVL_BOTH_EDGE_TRIGGER) /\
  (sense = IRQ_TYPE_LEVEL_HIGH ->
   result x = 0 /\ cnf_polarity cfg = TRIGGER_LEVEL_HIGH /\
   cnf_trigger_kind cfg = GPIO_INT_LVL_LEVEL_TRIGGER) /\
  (sense = IRQ_TYPE_LEVEL_LOW ->
   result x = 0 /\ cnf_polarity cfg = TRIGGER_LEVEL_LOW /\
   cnf_trigger_kind cfg = GPIO_INT_LVL_LEVEL_TRIGGER) /\
  (~ supported_sense sense ->
   result x = - EINVAL /\ regs_after x = r /\
   filter is_register_access (events x) = []).
Proof.
  intros Hd sense x port cfg.
  assert (Hcfg : reg_addr (hwirq d) GPIO_ENB_CONFIG_REG =
                 reg_offset port + hwirq d mod 8 * GPIO_REG_DIFF
                 + GPIO_ENB_CONFIG_REG).
  { apply reg_addr_plain; [assumption | cbv; split; congruence]. }
  pose proof (reg_window_plain (hwirq d)) as Hw. fold port in Hw.
  assert (Hok : forall trg lvl,
             irq_set_type_switch sense = Some (trg, lvl) ->
             0 <= trg <= 1 -> 0 <= lvl <= 3 ->
             result x = 0 /\ cnf_polarity cfg = trg /\
             cnf_trigger_kind cfg = lvl).
  { intros trg lvl Hsw Ht Hl.
    destruct (irq_set_type_accepted d type r trg lvl Hd Hsw) as [H0 Hword].
    rewrite Hw, Hcfg in Hword. fold x cfg in H0, Hword.
    split; [exact H0|]. rewrite Hword.
    now apply trigger_word_fields. }
  split; [|split; [|split; [|split; [|split]]]].
  1-5: intros Hsense; apply Hok;
    [rewrite Hsense; reflexivity | cbv; split; congruence ..].
  intros Hno.
  exact (irq_set_type_rejected d type r (irq_set_type_switch_default _ Hno)).
Qed.

Lemma set_type_programs_trigger_fields_witness :
  let r : regfile := fun _ _ => 0xFFFFFFFF in
  let d := {| irq := 50; hwirq := 18 |} in
  (result (tegra_gpio_irq_set_type d IRQ_TYPE_EDGE_RISING r) = 0 /\
   cnf_polarity (reg_value (regs_after
                   (tegra_gpio_irq_set_type d IRQ_TYPE_EDGE_RISING r))
                   0 0x13240) = 1 /\
   cnf_trigger_kind (reg_value (regs_after
                       (tegra_gpio_irq_set_type d IRQ_TYPE_EDGE_RISING r))
                       0 0x13240) = 2) /\
  result (tegra_gpio_irq_set_type d 0x5 r) = - EINVAL.
Proof.
  intros r d.
  assert (Hd : 0 <= hwirq d < ngpio tegra_gpio_chip) by (cbv; split; congruence).
  destruct (set_type_programs_trigger_fields d IRQ_TYPE_EDGE_RISING r Hd)
    as (Hrise & _).
  destruct (set_type_programs_trigger_fields d 0x5 r Hd)
    as (_ & _ & _ & _ & _ & Hrej).
  split.
  - apply Hrise. reflexivity.
  - apply Hrej. cbv. intuition congruence.
Defined.

(** ** The chained interrupt handler *)

Lemma port_map_of_ok ctrl :
  0 <= ctrl < MAX_GPIO_CONTROLLERS ->
  port_map_checkb ctrl 0 (port_map_of ctrl) = true.
Proof.
  intros Hc.
  apply (below_forallb (fun c => port_map_checkb c 0 (port_map_of c)) 7);
    [vm_compute; reflexivity | exact Hc].
Qed.

Lemma dispatched_app t1 t2 : dispatched (t1 ++ t2) = dispatched t1 ++ dispatched t2.
Proof. unfold dispatched. apply flat_map_app. Qed.

Lemma run_handlers_app env l1 l2 r :
  run_handlers env (l1 ++ l2) r = run_handlers env l2 (run_handlers env l1 r).
Proof. unfold run_handlers. apply fold_left_app. Qed.

Lemma for_each_set_bit_run env val gpio size pin r :
  let body := fun p => generic_handle_irq env (u32 (gpio + p)) in
  let pins := map (fun b => u32 (gpio + b))
                  (filter (Z.testbit val) (bits_from pin size)) in
  dispatched (events (for_each_set_bit val pin size body r)) = pins /\
  regs_after (for_each_set_bit val pin size body r) = run_handlers env pins r.
Proof.
  revert pin r. induction size as [|size IH]; intros pin r body pins.
  - now split.
  - subst pins. cbn [for_each_set_bit bits_from filter].
    destruct (IH (pin + 1)
                (regs_after ((if Z.testbit val pin then body pin else ret tt) r)))
      as [IHd IHr].
    fold body in IHd, IHr.
    rewrite events_bind, regs_after_bind, dispatched_app, IHd, IHr.
    destruct (Z.testbit val pin); split; reflexivity.
Qed.

Lemma in_bits_from b pin size :
  In b (bits_from pin size) -> pin <= b < pin + Z.of_nat size.
Proof.
  revert pin. induction size as [|size IH]; intros pin H; [contradiction|].
  cbn [bits_from] in H. destruct H as [<-|H]; [lia|].
  apply IH in H. lia.
Qed.

Lemma scan_port_absent env r : scan_port env (-1) r = (tt, r, []).
Proof. reflexivity. Qed.

Lemma scan_port_run env port r :
  0 <= port < MAX_PORTS ->
  let pins := pending_pins port (int_status r port) in
  dispatched (events (scan_port env port r)) = pins /\
  regs_after (scan_port env port r) = run_handlers env pins r.
Proof.
  intros Hp pins. unfold scan_port.
  destruct (Z.eqb_spec port (-1)) as [E|_]; [lia|].
  rewrite events_bind, regs_after_bind.
  change (regs_after (__raw_readl _ _ r)) with r.
  change (result (__raw_readl ?w ?a r)) with (reg_value r w a).
  fold (int_status r port).
  destruct (for_each_set_bit_run env (int_status r port) (u32 (port * 8)) 8 0 r)
    as [Hd Hr].
  cbv zeta in Hd, Hr.
  assert (Hpins : map (fun b => u32 (u32 (port * 8) + b))
                      (filter (Z.testbit (int_status r port)) (bits_from 0 8))
                  = pins).
  { subst pins. unfold pending_pins. apply map_ext_in.
    intros b Hb. apply filter_In in Hb. destruct Hb as [Hb _].
    apply in_bits_from in Hb. change MAX_PORTS with 32 in Hp.
    rewrite (u32_small (port * 8)) by lia. apply u32_small. lia. }
  rewrite Hpins in Hd, Hr.
  rewrite dispatched_app, Hd, Hr. now split.
Qed.



Lemma pin_of_port_bit port b :
  0 <= b < 8 -> (port * 8 + b) / 8 = port /\ (port * 8 + b) mod 8 = b.
Proof.
  intros Hb. split.
  - symmetry. apply Z.div_unique with b; lia.
  - symmetry. apply Z.mod_unique with port; lia.
Qed.

Lemma pending_pins_in port val g :
  In g (pending_pins port val) ->
  g / 8 = port /\ 0 <= g mod 8 < 8 /\ Z.testbit val (g mod 8) = true.
Proof.
  unfold pending_pins. intros H. apply in_map_iff in H.
  destruct H as (b & <- & Hb). apply filter_In in Hb. destruct Hb as [Hb Ht].
  apply in_bits_from in Hb.
  destruct (pin_of_port_bit port b ltac:(lia)) as [Hd Hm].
  rewrite Hd, Hm. repeat split; (lia || assumption).
Qed.




Lemma bracket_dispatched (m : M unit) r :
  dispatched (events ((emit EvChainedIrqEnter ;; m ;; emit EvChainedIrqExit) r))
  = dispatched (events (m r)).
Proof.
  rewrite !events_bind, !dispatched_app, !emit_eq.
  cbn [events snd dispatched flat_map app regs_after fst].
  now rewrite app_nil_r.
Qed.

Lemma handler_dispatched env tg_cont r :
  dispatched (events (tegra_gpio_irq_handler_desc env tg_cont r)) =
  dispatched (events (scan_ports env (port_map_of (controller tg_cont)) r)).
Proof.
  exact (bracket_dispatched
           (scan_ports env (port_map_of (controller tg_cont))) r).
Qed.

Lemma scan_ports_cons env p rest r :
  dispatched (events (scan_ports env (p :: rest) r)) =
  dispatched (events (scan_port env p r))
  ++ dispatched (events (scan_ports env rest (regs_after (scan_port env p r)))).
Proof. cbn [scan_ports]. now rewrite events_bind, dispatched_app. Qed.




(* ------------------------------------------------------------------ *)
(** * Further properties of the driver *)

(** ** Read-modify-write *)

Lemma u32_ext x y :
  (forall n, 0 <= n < 32 -> Z.testbit x n = Z.testbit y n) -> u32 x = u32 y.
Proof.
  intros H. unfold u32. apply Z.bits_inj'. intros n Hn.
  destruct (Z.lt_ge_cases n 32).
  - rewrite !Z.mod_pow2_bits_low by lia. apply H. lia.
  - rewrite !Z.mod_pow2_bits_high by lia. reflexivity.
Qed.

Lemma u32_reg_value r w a : u32 (reg_value r w a) = reg_value r w a.
Proof. apply u32_idem. Qed.

Lemma regs_after_update gpio reg mask val r :
  regs_after (tegra_gpio_update gpio reg mask val r) =
  regfile_set r (reg_window gpio) (reg_addr gpio reg)
    (u32 (update_word (pin_reg r gpio reg) mask val)).
Proof. reflexivity. Qed.

Lemma regs_after_writel val gpio reg r :
  regs_after (tegra_gpio_writel val gpio reg r) =
  regfile_set r (reg_window gpio) (reg_addr gpio reg) (u32 val).
Proof. reflexivity. Qed.

Lemma pin_reg_set_same r gpio reg v :
  pin_reg (regfile_set r (reg_window gpio) (reg_addr gpio reg) v) gpio reg
  = u32 v.
Proof. apply reg_value_set_same. Qed.

Lemma pin_reg_set_other r gpio reg reg' v :
  0 <= gpio < ngpio tegra_gpio_chip ->
  0 <= reg < 2 ^ 31 -> 0 <= reg' < 2 ^ 31 -> reg' <> reg ->
  pin_reg (regfile_set r (reg_window gpio) (reg_addr gpio reg) v) gpio reg'
  = pin_reg r gpio reg'.
Proof.
  intros Hg Hr Hr' Hne. unfold pin_reg. apply reg_value_set_other.
  rewrite !reg_addr_plain by assumption. lia.
Qed.

(** X1. [tegra_gpio_update] is a read-modify-write of one register: in the
    addressed word every bit under the mask takes the bit of [val], every
    other bit keeps its value, and no other register changes. *)
Theorem update_changes_masked_bits_only gpio reg mask val r n w a :
  0 <= n < 32 ->
  let r' := regs_after (tegra_gpio_update gpio reg mask val r) in
  Z.testbit (pin_reg r' gpio reg) n =
    (if Z.testbit mask n then Z.testbit val n
     else Z.testbit (pin_reg r gpio reg) n) /\
  ((w, a) <> (reg_window gpio, reg_addr gpio reg) ->
   reg_value r' w a = reg_value r w a).
Proof.
  intros Hn r'. subst r'. rewrite regs_after_update. split.
  - rewrite pin_reg_set_same, u32_idem, u32_testbit by assumption.
    now apply update_word_testbit.
  - intros Hne. rewrite reg_value_set.
    destruct (Z.eqb_spec w (reg_window gpio)) as [Ew|Ew];
      destruct (Z.eqb_spec a (reg_addr gpio reg)) as [Ea|Ea];
      try reflexivity.
    subst. contradiction.
Qed.

Lemma update_changes_masked_bits_only_witness :
  let r : regfile := fun _ _ => 0xF0 in
  let r' := regs_after (tegra_gpio_update 18 GPIO_ENB_CONFIG_REG 0x3C 0x0F r) in
  Z.testbit (pin_reg r' 18 GPIO_ENB_CONFIG_REG) 2 = true /\
  reg_value r' 0 0x13244 = 0xF0.
Proof.
  intros r r'.
  assert (Hn : 0 <= 2 < 32) by (cbv; split; congruence).
  destruct (update_changes_masked_bits_only 18 GPIO_ENB_CONFIG_REG 0x3C 0x0F
              r 2 0 0x13244 Hn) as [Hb Hf].
  split.
  - etransitivity; [exact Hb | reflexivity].
  - etransitivity; [apply Hf; cbv; congruence | reflexivity].
Defined.

(** ** Interrupt mask *)

Lemma BIT_testbit k n : 0 <= k -> Z.testbit (BIT k) n = (k =? n).
Proof.
  intros Hk. unfold BIT. rewrite Z.shiftl_1_l. now apply Z.pow2_bits_eqb.
Qed.

Lemma s32_pin gpio : 0 <= gpio < ngpio tegra_gpio_chip -> s32 gpio = gpio.
Proof.
  change (ngpio tegra_gpio_chip) with 256. intros H. apply s32_small. lia.
Qed.

Lemma irq_mask_regs d r :
  0 <= hwirq d < ngpio tegra_gpio_chip ->
  regs_after (tegra_gpio_irq_mask d r) =
  regfile_set r (reg_window (hwirq d))
    (reg_addr (hwirq d) GPIO_ENB_CONFIG_REG)
    (u32 (update_word (pin_reg r (hwirq d) GPIO_ENB_CONFIG_REG)
            GPIO_INT_FUNC_BIT 0)).
Proof.
  intros Hd. unfold tegra_gpio_irq_mask.
  now rewrite u32_s32, (u32_pin _ Hd), regs_after_update.
Qed.

Lemma irq_unmask_regs d r :
  0 <= hwirq d < ngpio tegra_gpio_chip ->
  regs_after (tegra_gpio_irq_unmask d r) =
  regfile_set r (reg_window (hwirq d))
    (reg_addr (hwirq d) GPIO_ENB_CONFIG_REG)
    (u32 (update_word (pin_reg r (hwirq d) GPIO_ENB_CONFIG_REG)
            GPIO_INT_FUNC_BIT GPIO_INT_FUNC_BIT)).
Proof.
  intros Hd. unfold tegra_gpio_irq_unmask.
  now rewrite u32_s32, (u32_pin _ Hd), regs_after_update.
Qed.

Lemma int_func_update_testbit old val n :
  0 <= n < 32 ->
  Z.testbit (u32 (update_word old GPIO_INT_FUNC_BIT val)) n =
  if 6 =? n then Z.testbit val n else Z.testbit old n.
Proof.
  intros Hn. unfold GPIO_INT_FUNC_BIT.
  now rewrite u32_testbit, update_word_testbit, BIT_testbit by lia.
Qed.

(** X2. Masking an interrupt clears the interrupt-function bit of the
    pin's configuration register, and masking again changes nothing: after
    the second [tegra_gpio_irq_mask] every register holds what it held
    after the first. *)
Theorem irq_mask_idempotent d r w a :
  0 <= hwirq d < ngpio tegra_gpio_chip ->
  let masked := regs_after (tegra_gpio_irq_mask d r) in
  let again := regs_after (tegra_gpio_irq_mask d masked) in
  bit_set (pin_reg masked (hwirq d) GPIO_ENB_CONFIG_REG) GPIO_INT_FUNC_BIT
  = false /\
  reg_value again w a = reg_value masked w a.
Proof.
  intros Hd masked again.
  assert (Hm : pin_reg masked (hwirq d) GPIO_ENB_CONFIG_REG =
               u32 (update_word (pin_reg r (hwirq d) GPIO_ENB_CONFIG_REG)
                      GPIO_INT_FUNC_BIT 0)).
  { subst masked. now rewrite irq_mask_regs, pin_reg_set_same, u32_idem. }
  split.
  - rewrite Hm. unfold GPIO_INT_FUNC_BIT at 2.
    rewrite bit_set_testbit, int_func_update_testbit by lia. reflexivity.
  - subst again. rewrite irq_mask_regs by assumption.
    rewrite reg_value_set.
    destruct ((w =? _) && (a =? _)) eqn:E; [|reflexivity].
    apply andb_prop in E. destruct E as [Ew Ea].
    apply Z.eqb_eq in Ew, Ea. subst w a.
    fold (pin_reg masked (hwirq d) GPIO_ENB_CONFIG_REG).
    rewrite u32_idem, Hm. apply u32_ext. intros n Hn.
    rewrite !update_word_testbit by assumption.
    rewrite int_func_update_testbit by assumption.
    unfold GPIO_INT_FUNC_BIT. rewrite !BIT_testbit by lia.
    destruct (6 =? n); reflexivity.
Qed.

Lemma irq_mask_idempotent_witness :
  let r : regfile := fun _ _ => 0xFFFFFFFF in
  let d := {| irq := 50; hwirq := 18 |} in
  reg_value (regs_after (tegra_gpio_irq_mask d
                           (regs_after (tegra_gpio_irq_mask d r)))) 0 0x13240
  = 0xFFFFFFBF.
Proof.
  intros r d.
  assert (Hd : 0 <= hwirq d < ngpio tegra_gpio_chip) by (cbv; split; congruence).
  destruct (irq_mask_idempotent d r 0 0x13240 Hd) as [_ H].
  etransitivity; [exact H | reflexivity].
Defined.

(** X3. Masking and unmasking touch the interrupt-function bit only:
    after [tegra_gpio_irq_mask] followed by [tegra_gpio_irq_unmask] the bit
    is set and every other bit of the configuration register, hence the
    trigger kind and the polarity, is what it was before the two calls. *)
Theorem irq_unmask_after_mask_keeps_config d r n :
  0 <= hwirq d < ngpio tegra_gpio_chip ->
  0 <= n < 32 -> n <> 6 ->
  let cfg r := pin_reg r (hwirq d) GPIO_ENB_CONFIG_REG in
  let masked := regs_after (tegra_gpio_irq_mask d r) in
  let unmasked := regs_after (tegra_gpio_irq_unmask d masked) in
  bit_set (cfg unmasked) GPIO_INT_FUNC_BIT = true /\
  Z.testbit (cfg masked) n = Z.testbit (cfg r) n /\
  Z.testbit (cfg unmasked) n = Z.testbit (cfg r) n /\
  cnf_trigger_kind (cfg unmasked) = cnf_trigger_kind (cfg r) /\
  cnf_polarity (cfg unmasked) = cnf_polarity (cfg r).
Proof.
  intros Hd Hn H6 cfg masked unmasked.
  assert (Hm : forall k, 0 <= k < 32 ->
             Z.testbit (cfg masked) k =
             if 6 =? k then false else Z.testbit (cfg r) k).
  { intros k Hk. subst cfg masked. cbv beta.
    rewrite irq_mask_regs, pin_reg_set_same, u32_idem by assumption.
    rewrite int_func_update_testbit by assumption.
    destruct (6 =? k); [apply Z.testbit_0_l | reflexivity]. }
  assert (Hu : forall k, 0 <= k < 32 ->
             Z.testbit (cfg unmasked) k =
             if 6 =? k then true else Z.testbit (cfg r) k).
  { intros k Hk. subst cfg unmasked. cbv beta.
    rewrite irq_unmask_regs, pin_reg_set_same, u32_idem by assumption.
    rewrite int_func_update_testbit by assumption.
    specialize (Hm k Hk). cbv beta in Hm. rewrite Hm.
    destruct (Z.eqb_spec 6 k) as [E|E]; [rewrite <- E|]; reflexivity. }
  assert (Hc : cfg unmasked = u32 (cfg unmasked)).
  { subst cfg unmasked. cbv beta.
    now rewrite irq_unmask_regs, pin_reg_set_same, !u32_idem by assumption. }
  split.
  { rewrite Hc. unfold GPIO_INT_FUNC_BIT.
    rewrite bit_set_u32, Hu by lia. reflexivity. }
  split.
  { rewrite Hm by assumption. destruct (Z.eqb_spec 6 n); [lia | reflexivity]. }
  split.
  { rewrite Hu by assumption. destruct (Z.eqb_spec 6 n); [lia | reflexivity]. }
  split.
  - rewrite !cnf_trigger_kind_testbit, !Hu by lia. reflexivity.
  - rewrite !cnf_polarity_testbit, !Hu by lia. reflexivity.
Qed.

Lemma irq_unmask_after_mask_keeps_config_witness :
  let r : regfile := fun _ _ => 0x1B in
  let d := {| irq := 50; hwirq := 18 |} in
  let unmasked := regs_after (tegra_gpio_irq_unmask d
                                (regs_after (tegra_gpio_irq_mask d r))) in
  cnf_trigger_kind (pin_reg unmasked 18 GPIO_ENB_CONFIG_REG) = 2 /\
  cnf_polarity (pin_reg unmasked 18 GPIO_ENB_CONFIG_REG) = 1.
Proof.
  intros r d unmasked.
  assert (Hd : 0 <= hwirq d < ngpio tegra_gpio_chip) by (cbv; split; congruence).
  assert (Hn : 0 <= 3 < 32) by (cbv; split; congruence).
  assert (H6 : 3 <> 6) by congruence.
  destruct (irq_unmask_after_mask_keeps_config d r 3 Hd Hn H6)
    as (_ & _ & _ & Hk & Hp).
  split.
  - etransitivity; [exact Hk | reflexivity].
  - etransitivity; [exact Hp | reflexivity].
Defined.

(** ** Request and free *)

(** X4. [tegra_gpio_request] never stores to a register.  On a pin that
    passes the accessibility check it asks pinctrl once, for line
    [base + offset], and returns pinctrl's answer as it is; on any pin that
    fails the check, for whatever reason, it returns -EBUSY and pinctrl is
    not called. *)
Theorem request_follows_the_gate env chip gpio r :
  0 <= gpio < ngpio tegra_gpio_chip ->
  let x := tegra_gpio_request env chip gpio r in
  let line := u32 (base chip + gpio) in
  regs_after x = r /\
  filter is_writel (events x) = [] /\
  (result (is_gpio_accessible gpio r) = true ->
   result x = pinctrl_request_gpio_ret env line /\
   filter is_pinctrl (events x) = [EvPinctrlRequestGpio line]) /\
  (result (is_gpio_accessible gpio r) = false ->
   result x = - EBUSY /\ filter is_pinctrl (events x) = []).
Proof.
  intros _ x line. subst x. unfold tegra_gpio_request, pinctrl_request_gpio.
  rewrite bind_eq, is_gpio_accessible_eq.
  destruct (GPIO_PIN gpio >=? _); [cbn; repeat split; congruence|].
  destruct (cont_id _ <? 0); [cbn; repeat split; congruence|].
  rewrite !result_pair, !regs_after_pair, !events_pair.
  destruct (Z.land _ _ =? _); run; cbn; repeat split; congruence.
Qed.

Lemma request_follows_the_gate_witness :
  let r : regfile := fun _ a => if a =? 0x2034 then 0x18000202 else 0 in
  result (tegra_gpio_request failing_pinctrl_env tegra_gpio_chip 6 r) = 0 /\
  result (tegra_gpio_request failing_pinctrl_env tegra_gpio_chip 5 r)
  = - EBUSY.
Proof.
  intros r.
  assert (H6 : 0 <= 6 < ngpio tegra_gpio_chip) by (cbv; split; congruence).
  assert (H5 : 0 <= 5 < ngpio tegra_gpio_chip) by (cbv; split; congruence).
  destruct (request_follows_the_gate failing_pinctrl_env tegra_gpio_chip 6 r
              H6) as (_ & _ & Hacc & _).
  destruct (request_follows_the_gate failing_pinctrl_env tegra_gpio_chip 5 r
              H5) as (_ & _ & _ & Hrej).
  split.
  - now apply Hacc.
  - now apply Hrej.
Defined.

(** X5. [tegra_gpio_free] hands the line back to pinctrl first and then
    clears the enable bit of the pin's configuration register by one
    read-modify-write; every other bit of that register stays.  It does not
    consult the accessibility check. *)
Theorem free_releases_then_disables chip gpio r n :
  0 <= gpio < ngpio tegra_gpio_chip ->
  0 < n < 32 ->
  let x := tegra_gpio_free chip gpio r in
  let w := reg_window gpio in
  let a := reg_addr gpio GPIO_ENB_CONFIG_REG in
  let old := pin_reg r gpio GPIO_ENB_CONFIG_REG in
  let new := pin_reg (regs_after x) gpio GPIO_ENB_CONFIG_REG in
  events x = [EvPinctrlFreeGpio (u32 (base chip + gpio)); EvReadl w a;
              EvWritel (update_word old 0x1 0x0) w a] /\
  bit_set new GPIO_ENB_BIT = false /\
  Z.testbit new n = Z.testbit old n.
Proof.
  intros Hg Hn x w a old new.
  assert (Hnew : new = u32 (update_word old 1 0)).
  { subst new x. unfold tegra_gpio_free, tegra_gpio_disable, pinctrl_free_gpio.
    run. rewrite (u32_pin _ Hg). now rewrite pin_reg_set_same, u32_idem. }
  split.
  { subst x. unfold tegra_gpio_free, tegra_gpio_disable, pinctrl_free_gpio.
    run. now rewrite (u32_pin _ Hg). }
  rewrite Hnew. split.
  - unfold GPIO_ENB_BIT.
    rewrite bit_set_u32, update_word_testbit_in by (lia || reflexivity).
    reflexivity.
  - rewrite u32_testbit, update_word_testbit_out; [reflexivity | lia | | lia].
    apply Z.bits_above_log2; [lia|]. change (Z.log2 1) with 0. lia.
Qed.

Lemma free_releases_then_disables_witness :
  let r : regfile := fun _ _ => 0x43 in
  let cfg := pin_reg (regs_after (tegra_gpio_free tegra_gpio_chip 18 r)) 18
               GPIO_ENB_CONFIG_REG in
  bit_set cfg GPIO_ENB_BIT = false /\ Z.testbit cfg 1 = true.
Proof.
  intros r cfg.
  assert (Hg : 0 <= 18 < ngpio tegra_gpio_chip) by (cbv; split; congruence).
  assert (Hn : 0 < 1 < 32) by (cbv; split; congruence).
  destruct (free_releases_then_disables tegra_gpio_chip 18 r 1 Hg Hn)
    as (_ & Hen & Hbit).
  split.
  - exact Hen.
  - etransitivity; [exact Hbit | reflexivity].
Defined.

(** ** Direction and value *)

Lemma direction_input_regs env chip gpio r :
  regs_after (tegra_gpio_direction_input env chip gpio r) =
  regs_after (program_direction_input gpio r).
Proof.
  unfold tegra_gpio_direction_input, program_direction_input,
    pinctrl_gpio_direction_input.
  run. now destruct (_ <? 0).
Qed.

Lemma direction_output_regs env chip gpio value r :
  regs_after (tegra_gpio_direction_output env chip gpio value r) =
  regs_after (program_direction_output chip gpio value r).
Proof.
  unfold tegra_gpio_direction_output, program_direction_output,
    pinctrl_gpio_direction_output.
  run. now destruct (_ <? 0).
Qed.

Lemma reg_in_range reg :
  In reg [GPIO_ENB_CONFIG_REG; GPIO_DBC_THRES_REG; GPIO_INPUT_REG;
          GPIO_OUT_CTRL_REG; GPIO_OUT_VAL_REG; GPIO_INT_CLEAR_REG;
          GPIO_REG_DIFF] ->
  0 <= reg < 2 ^ 31.
Proof.
  intros H. cbn [In] in H.
  repeat (destruct H as [<-|H]; [cbv; split; congruence|]). contradiction.
Qed.

Lemma program_direction_input_cfg_word gpio r :
  0 <= gpio < ngpio tegra_gpio_chip ->
  pin_reg (regs_after (program_direction_input gpio r)) gpio
          GPIO_ENB_CONFIG_REG =
  u32 (update_word
         (u32 (Z.land (pin_reg r gpio GPIO_ENB_CONFIG_REG)
                      (not32 GPIO_INOUT_BIT))) 1 1).
Proof.
  intros Hg.
  unfold program_direction_input, set_gpio_direction_mode, tegra_gpio_enable.
  run. rewrite (u32_pin gpio Hg). unfold pin_reg.
  now rewrite !reg_value_set_same, !u32_idem.
Qed.

Lemma program_direction_input_other gpio r reg :
  0 <= gpio < ngpio tegra_gpio_chip ->
  0 <= reg < 2 ^ 31 -> reg <> GPIO_ENB_CONFIG_REG ->
  pin_reg (regs_after (program_direction_input gpio r)) gpio reg
  = pin_reg r gpio reg.
Proof.
  intros Hg Hr Hne.
  unfold program_direction_input, set_gpio_direction_mode, tegra_gpio_enable.
  run. rewrite (u32_pin gpio Hg).
  rewrite !pin_reg_set_other; (assumption || reflexivity || (cbv; split; congruence)).
Qed.

Lemma program_direction_output_cfg_word chip gpio value r :
  0 <= gpio < ngpio tegra_gpio_chip ->
  pin_reg (regs_after (program_direction_output chip gpio value r)) gpio
          GPIO_ENB_CONFIG_REG =
  u32 (update_word
         (u32 (Z.lor (pin_reg r gpio GPIO_ENB_CONFIG_REG) GPIO_INOUT_BIT))
         1 1).
Proof.
  intros Hg.
  unfold program_direction_output, tegra_gpio_set, set_gpio_direction_mode,
    tegra_gpio_enable.
  run. rewrite (u32_pin gpio Hg). unfold pin_reg.
  assert (Hv : reg_addr gpio GPIO_ENB_CONFIG_REG
               <> reg_addr gpio GPIO_OUT_VAL_REG).
  { rewrite !reg_addr_plain by (assumption || (cbv; split; congruence)).
    unfold GPIO_ENB_CONFIG_REG, GPIO_OUT_VAL_REG. lia. }
  assert (Hc : reg_addr gpio GPIO_ENB_CONFIG_REG
               <> reg_addr gpio GPIO_OUT_CTRL_REG).
  { rewrite !reg_addr_plain by (assumption || (cbv; split; congruence)).
    unfold GPIO_ENB_CONFIG_REG, GPIO_OUT_CTRL_REG. lia. }
  rewrite !reg_value_set_same, !u32_idem.
  now rewrite !reg_value_set_other by assumption.
Qed.

Lemma program_direction_output_val chip gpio value r :
  0 <= gpio < ngpio tegra_gpio_chip ->
  pin_reg (regs_after (program_direction_output chip gpio value r)) gpio
          GPIO_OUT_VAL_REG = (if value =? 0 then 0 else 1).
Proof.
  intros Hg.
  unfold program_direction_output, tegra_gpio_set, set_gpio_direction_mode,
    tegra_gpio_enable.
  run. rewrite (u32_pin gpio Hg).
  rewrite !(pin_reg_set_other _ gpio _ GPIO_OUT_VAL_REG)
    by (assumption || (cbv; split; congruence) || (cbv; congruence)).
  rewrite pin_reg_set_same. now destruct (value =? 0).
Qed.

Lemma testbit_1_high n : 1 <= n -> Z.testbit 1 n = false.
Proof.
  intros H. apply Z.bits_above_log2; [lia|]. change (Z.log2 1) with 0. lia.
Qed.

(** X6. What a pin reads back right after its direction was set:
    [tegra_gpio_direction_output] followed by [tegra_gpio_get] yields the
    value just driven (1 for any non-zero value, else 0), and
    [tegra_gpio_direction_input] followed by [tegra_gpio_get] yields the
    low bit of the input-status register; both whatever the registers held
    before and whatever pinctrl answers. *)
Theorem get_after_direction env chip gpio value r :
  0 <= gpio < ngpio tegra_gpio_chip ->
  result ((tegra_gpio_direction_output env chip gpio value ;;
           tegra_gpio_get chip gpio) r) = (if value =? 0 then 0 else 1) /\
  result ((tegra_gpio_direction_input env chip gpio ;;
           tegra_gpio_get chip gpio) r)
  = Z.land (pin_reg r gpio GPIO_INPUT_REG) 1.
Proof.
  intros Hg. split.
  - rewrite result_bind, tegra_gpio_get_eq, direction_output_regs.
    destruct (program_direction_output_cfg chip gpio value r Hg) as [-> _].
    fold (pin_reg (regs_after (program_direction_output chip gpio value r))
            gpio GPIO_OUT_VAL_REG).
    rewrite program_direction_output_val by assumption.
    now destruct (value =? 0).
  - rewrite result_bind, tegra_gpio_get_eq, direction_input_regs.
    destruct (program_direction_input_cfg gpio r Hg) as [-> _].
    fold (pin_reg (regs_after (program_direction_input gpio r))
            gpio GPIO_INPUT_REG).
    rewrite program_direction_input_other;
      [reflexivity | assumption | cbv; split; congruence | cbv; congruence].
Qed.

Lemma get_after_direction_witness :
  let r : regfile := fun _ a => if a =? 0x13248 then 1 else 0 in
  result ((tegra_gpio_direction_output failing_pinctrl_env tegra_gpio_chip 18 5 ;;
           tegra_gpio_get tegra_gpio_chip 18) r) = 1 /\
  result ((tegra_gpio_direction_input failing_pinctrl_env tegra_gpio_chip 18 ;;
           tegra_gpio_get tegra_gpio_chip 18) r) = 1.
Proof.
  intros r.
  assert (Hg : 0 <= 18 < ngpio tegra_gpio_chip) by (cbv; split; congruence).
  destruct (get_after_direction failing_pinctrl_env tegra_gpio_chip 18 5 r Hg)
    as [Hout Hin].
  split.
  - etransitivity; [exact Hout | reflexivity].
  - etransitivity; [exact Hin | reflexivity].
Defined.

(** X7. Setting the direction rewrites only the direction bit (bit 1) and
    the enable bit (bit 0) of the configuration register: every higher bit
    (trigger kind, polarity, debounce and interrupt function) is the same
    after [tegra_gpio_direction_input] and after
    [tegra_gpio_direction_output] as before. *)
Theorem direction_keeps_higher_config_bits env chip gpio value r n :
  0 <= gpio < ngpio tegra_gpio_chip ->
  2 <= n < 32 ->
  let cfg r := pin_reg r gpio GPIO_ENB_CONFIG_REG in
  Z.testbit (cfg (regs_after (tegra_gpio_direction_input env chip gpio r))) n
  = Z.testbit (cfg r) n /\
  Z.testbit
    (cfg (regs_after (tegra_gpio_direction_output env chip gpio value r))) n
  = Z.testbit (cfg r) n.
Proof.
  intros Hg Hn cfg. subst cfg. cbv beta.
  assert (Hio : Z.testbit GPIO_INOUT_BIT n = false).
  { unfold GPIO_INOUT_BIT. rewrite BIT_testbit by lia. apply Z.eqb_neq. lia. }
  split.
  - rewrite direction_input_regs, program_direction_input_cfg_word
      by assumption.
    rewrite u32_testbit, update_word_testbit_out, u32_testbit
      by (lia || apply testbit_1_high; lia).
    rewrite Z.land_spec, not32_testbit, Hio by lia. apply andb_true_r.
  - rewrite direction_output_regs, program_direction_output_cfg_word
      by assumption.
    rewrite u32_testbit, update_word_testbit_out, u32_testbit
      by (lia || apply testbit_1_high; lia).
    rewrite Z.lor_spec, Hio. apply orb_false_r.
Qed.

Lemma direction_keeps_higher_config_bits_witness :
  let r : regfile := fun _ _ => 0x58 in
  Z.testbit (pin_reg (regs_after (tegra_gpio_direction_output quiet_env
                                    tegra_gpio_chip 18 1 r))
                     18 GPIO_ENB_CONFIG_REG) 6 = true.
Proof.
  intros r.
  assert (Hg : 0 <= 18 < ngpio tegra_gpio_chip) by (cbv; split; congruence).
  assert (Hn : 2 <= 6 < 32) by (cbv; split; congruence).
  destruct (direction_keeps_higher_config_bits quiet_env tegra_gpio_chip 18 1
              r 6 Hg Hn) as [_ Hout].
  etransitivity; [exact Hout | reflexivity].
Defined.

(** X8. [tegra_gpio_get] always yields 0 or 1.  On a pin whose direction
    bit says input, a preceding [tegra_gpio_set] does not change what it
    yields: the value still comes from the input-status register, which
    [tegra_gpio_set] does not touch. *)
Theorem set_is_invisible_on_input_pin chip gpio value r :
  0 <= gpio < ngpio tegra_gpio_chip ->
  bit_set (pin_reg r gpio GPIO_ENB_CONFIG_REG) GPIO_INOUT_BIT = false ->
  0 <= result (tegra_gpio_get chip gpio r) <= 1 /\
  result ((tegra_gpio_set chip gpio value ;; tegra_gpio_get chip gpio) r)
  = result (tegra_gpio_get chip gpio r) /\
  result (tegra_gpio_get chip gpio r)
  = Z.land (pin_reg r gpio GPIO_INPUT_REG) 1.
Proof.
  intros Hg Hdir.
  assert (Hget : result (tegra_gpio_get chip gpio r)
                 = Z.land (pin_reg r gpio GPIO_INPUT_REG) 1).
  { rewrite tegra_gpio_get_eq. fold (pin_reg r gpio GPIO_ENB_CONFIG_REG).
    now rewrite Hdir. }
  split; [rewrite Hget; apply land_1_range|].
  split; [|exact Hget].
  rewrite Hget, result_bind, tegra_gpio_get_eq.
  unfold tegra_gpio_set. run.
  fold (pin_reg
          (regfile_set
             (regfile_set r (reg_window gpio) (reg_addr gpio GPIO_OUT_VAL_REG)
                (u32 (if value =? 0 then 0 else 1)))
             (reg_window gpio) (reg_addr gpio GPIO_OUT_CTRL_REG) (u32 0))
          gpio GPIO_ENB_CONFIG_REG).
  rewrite !(pin_reg_set_other _ gpio _ GPIO_ENB_CONFIG_REG)
    by (assumption || (cbv; split; congruence) || (cbv; congruence)).
  rewrite Hdir.
  fold (pin_reg
          (regfile_set
             (regfile_set r (reg_window gpio) (reg_addr gpio GPIO_OUT_VAL_REG)
                (u32 (if value =? 0 then 0 else 1)))
             (reg_window gpio) (reg_addr gpio GPIO_OUT_CTRL_REG) (u32 0))
          gpio GPIO_INPUT_REG).
  now rewrite !(pin_reg_set_other _ gpio _ GPIO_INPUT_REG)
    by (assumption || (cbv; split; congruence) || (cbv; congruence)).
Qed.

Lemma set_is_invisible_on_input_pin_witness :
  let r : regfile := fun _ a => if a =? 0x13248 then 1 else 0 in
  result ((tegra_gpio_set tegra_gpio_chip 18 0 ;;
           tegra_gpio_get tegra_gpio_chip 18) r) = 1.
Proof.
  intros r.
  assert (Hg : 0 <= 18 < ngpio tegra_gpio_chip) by (cbv; split; congruence).
  destruct (set_is_invisible_on_input_pin tegra_gpio_chip 18 0 r Hg
              ltac:(reflexivity)) as (_ & Hsame & _).
  etransitivity; [exact Hsame | reflexivity].
Defined.

(** ** Trigger type: dispatch discipline and wake registry *)

Lemma gpio_to_wake_from_events wakes i gpio r :
  events (gpio_to_wake_from i wakes gpio r) = [] \/
  exists slot, events (gpio_to_wake_from i wakes gpio r)
               = [EvPrInfoWake slot gpio].
Proof.
  revert i. induction wakes as [|w rest IH]; intros i; [now left|].
  cbn [gpio_to_wake_from]. destruct (w =? gpio); [|apply IH].
  right. exists i. reflexivity.
Qed.

Lemma irq_set_type_events d type r trg lvl :
  irq_set_type_switch (Z.land type IRQ_TYPE_SENSE_MASK) = Some (trg, lvl) ->
  let gpio := u32 (hwirq d) in
  let lookup := tegra186_gpio_to_wake (s32 (hwirq d)) r in
  let w := reg_window gpio in
  let a := reg_addr gpio GPIO_ENB_CONFIG_REG in
  let word :=
    Z.lor (Z.land (reg_value r w a)
             (not32 (Z.lor (Z.shiftl 3 GPIO_TRG_TYPE_BIT_OFFSET)
                           GPIO_TRG_LVL_BIT)))
          (Z.lor (u32 (Z.shiftl trg 4)) (u32 (Z.shiftl lvl 2))) in
  events (tegra_gpio_irq_set_type d type r) =
  events lookup
  ++ [EvReadl w a; EvWritel word w a;
      EvReadl w a; EvWritel (update_word (u32 word) 1 1) w a]
  ++ (if negb (Z.land type (Z.lor IRQ_TYPE_LEVEL_LOW IRQ_TYPE_LEVEL_HIGH) =? 0)
      then [EvIrqSetHandlerLocked (hwirq d) handle_level_irq]
      else if negb (Z.land type (Z.lor IRQ_TYPE_EDGE_FALLING
                                       IRQ_TYPE_EDGE_RISING) =? 0)
      then [EvIrqSetHandlerLocked (hwirq d) handle_edge_irq]
      else [])
  ++ (if result lookup >=? 0
      then [EvPmIrqSetWakeType (result lookup) type] else []).
Proof.
  intros Hsw gpio lookup w a word.
  unfold tegra_gpio_irq_set_type. rewrite Hsw.
  destruct (gpio_to_wake_from_quiet tegra186_gpio_wakes 0 (s32 (hwirq d)) r)
    as [Hr _].
  fold (tegra186_gpio_to_wake (s32 (hwirq d))) in Hr. fold lookup in Hr.
  unfold tegra_gpio_enable, irq_set_handler_locked,
    tegra_pm_irq_set_wake_type.
  run. fold lookup. rewrite Hr. fold gpio w a.
  rewrite reg_value_set_same, u32_idem. fold word.
  destruct (result lookup >=? 0);
    destruct (negb (Z.land type (Z.lor IRQ_TYPE_LEVEL_LOW _) =? 0));
    try destruct (negb (Z.land type _ =? 0));
    run; cbn [app]; rewrite <- ?app_assoc; reflexivity.
Qed.

Lemma sense_bits type m :
  Z.land IRQ_TYPE_SENSE_MASK m = m ->
  Z.land type m = Z.land (Z.land type IRQ_TYPE_SENSE_MASK) m.
Proof. intros H. now rewrite <- Z.land_assoc, H. Qed.

Lemma filter_wake_lookup (f : event -> bool) gpio r :
  (forall slot g, f (EvPrInfoWake slot g) = false) ->
  filter f (events (tegra186_gpio_to_wake gpio r)) = [].
Proof.
  intros Hf. unfold tegra186_gpio_to_wake.
  destruct (gpio_to_wake_from_events tegra186_gpio_wakes 0 gpio r)
    as [-> | [slot ->]]; [reflexivity|].
  cbn [filter]. now rewrite Hf.
Qed.

(** X9. [tegra_gpio_irq_set_type] installs the flow handler that matches
    the trigger type, exactly once per accepted call: [handle_level_irq]
    for level-high and level-low, [handle_edge_irq] for edge-rising,
    edge-falling and edge-both; a rejected type installs none. *)
Theorem set_type_selects_flow_handler d type r :
  0 <= hwirq d < ngpio tegra_gpio_chip ->
  let sense := Z.land type IRQ_TYPE_SENSE_MASK in
  let installed :=
    filter is_set_handler (events (tegra_gpio_irq_set_type d type r)) in
  (sense = IRQ_TYPE_LEVEL_HIGH \/ sense = IRQ_TYPE_LEVEL_LOW ->
   installed = [EvIrqSetHandlerLocked (hwirq d) handle_level_irq]) /\
  (sense = IRQ_TYPE_EDGE_RISING \/ sense = IRQ_TYPE_EDGE_FALLING \/
   sense = IRQ_TYPE_EDGE_BOTH ->
   installed = [EvIrqSetHandlerLocked (hwirq d) handle_edge_irq]) /\
  (~ supported_sense sense -> installed = []).
Proof.
  intros _ sense installed.
  assert (Hlvl : Z.land type (Z.lor IRQ_TYPE_LEVEL_LOW IRQ_TYPE_LEVEL_HIGH)
                 = Z.land sense (Z.lor IRQ_TYPE_LEVEL_LOW IRQ_TYPE_LEVEL_HIGH))
    by (apply sense_bits; reflexivity).
  assert (Hedge : Z.land type (Z.lor IRQ_TYPE_EDGE_FALLING IRQ_TYPE_EDGE_RISING)
                  = Z.land sense (Z.lor IRQ_TYPE_EDGE_FALLING
                                        IRQ_TYPE_EDGE_RISING))
    by (apply sense_bits; reflexivity).
  assert (Hacc : forall trg lvl,
             irq_set_type_switch sense = Some (trg, lvl) ->
             installed =
             if negb (Z.land sense (Z.lor IRQ_TYPE_LEVEL_LOW
                                          IRQ_TYPE_LEVEL_HIGH) =? 0)
             then [EvIrqSetHandlerLocked (hwirq d) handle_level_irq]
             else if negb (Z.land sense (Z.lor IRQ_TYPE_EDGE_FALLING
                                               IRQ_TYPE_EDGE_RISING) =? 0)
             then [EvIrqSetHandlerLocked (hwirq d) handle_edge_irq]
             else []).
  { intros trg lvl Hsw. subst installed.
    rewrite (irq_set_type_events d type r trg lvl Hsw).
    rewrite !filter_app, filter_wake_lookup by reflexivity.
    rewrite Hlvl, Hedge. cbn [filter is_set_handler app].
    destruct (negb (Z.land sense (Z.lor IRQ_TYPE_LEVEL_LOW _) =? 0));
      [|destruct (negb (Z.land sense _ =? 0))];
      destruct (result _ >=? 0); reflexivity. }
  split; [|split].
  - intros [H|H].
    + rewrite (Hacc 1 1); rewrite H; reflexivity.
    + rewrite (Hacc 0 1); rewrite H; reflexivity.
  - intros [H|[H|H]].
    + rewrite (Hacc 1 2); rewrite H; reflexivity.
    + rewrite (Hacc 0 2); rewrite H; reflexivity.
    + rewrite (Hacc 0 3); rewrite H; reflexivity.
  - intros Hno. subst installed.
    unfold tegra_gpio_irq_set_type. fold sense.
    rewrite (irq_set_type_switch_default _ Hno). run.
    now apply filter_wake_lookup.
Qed.

Lemma set_type_selects_flow_handler_witness :
  let r : regfile := fun _ _ => 0 in
  let d := {| irq := 50; hwirq := 18 |} in
  filter is_set_handler
    (events (tegra_gpio_irq_set_type d IRQ_TYPE_LEVEL_LOW r))
  = [EvIrqSetHandlerLocked 18 handle_level_irq] /\
  filter is_set_handler
    (events (tegra_gpio_irq_set_type d IRQ_TYPE_EDGE_BOTH r))
  = [EvIrqSetHandlerLocked 18 handle_edge_irq].
Proof.
  intros r d.
  assert (Hd : 0 <= hwirq d < ngpio tegra_gpio_chip) by (cbv; split; congruence).
  destruct (set_type_selects_flow_handler d IRQ_TYPE_LEVEL_LOW r Hd)
    as (Hlevel & _ & _).
  destruct (set_type_selects_flow_handler d IRQ_TYPE_EDGE_BOTH r Hd)
    as (_ & Hedge & _).
  split.
  - apply Hlevel. now right.
  - apply Hedge. right. now right.
Defined.

Lemma irq_set_type_switch_supported sense :
  supported_sense sense ->
  exists trg lvl, irq_set_type_switch sense = Some (trg, lvl) /\
                  0 <= trg <= 1 /\ 1 <= lvl <= 3.
Proof.
  intros [H|[H|[H|[H|H]]]]; rewrite H.
  - exists 1, 2. repeat split; (reflexivity || lia).
  - exists 0, 2. repeat split; (reflexivity || lia).
  - exists 0, 3. repeat split; (reflexivity || lia).
  - exists 1, 1. repeat split; (reflexivity || lia).
  - exists 0, 1. repeat split; (reflexivity || lia).
Qed.

(** X10. An accepted [tegra_gpio_irq_set_type] enables the pin and
    rewrites the trigger kind and polarity only: the direction bit (bit 1)
    and every bit from 5 upwards (debounce function, interrupt function,
    ...) of the configuration register keep their values. *)
Theorem set_type_keeps_other_config_bits d type r n :
  0 <= hwirq d < ngpio tegra_gpio_chip ->
  supported_sense (Z.land type IRQ_TYPE_SENSE_MASK) ->
  n = 1 \/ 5 <= n < 32 ->
  let cfg r := pin_reg r (hwirq d) GPIO_ENB_CONFIG_REG in
  let r' := regs_after (tegra_gpio_irq_set_type d type r) in
  bit_set (cfg r') GPIO_ENB_BIT = true /\
  Z.testbit (cfg r') n = Z.testbit (cfg r) n.
Proof.
  intros Hd Hsup Hn cfg r'.
  destruct (irq_set_type_switch_supported _ Hsup)
    as (trg & lvl & Hsw & Ht & Hl).
  destruct (irq_set_type_accepted d type r trg lvl Hd Hsw) as [_ Hword].
  subst cfg r'. cbv beta. unfold pin_reg. rewrite Hword.
  unfold trigger_word. split.
  - unfold GPIO_ENB_BIT.
    now rewrite bit_set_u32, update_word_testbit_in by (lia || reflexivity).
  - rewrite u32_testbit, update_word_testbit_out, u32_testbit
      by (lia || apply testbit_1_high; lia).
    rewrite !Z.lor_spec, Z.land_spec, not32_testbit, !u32_testbit by lia.
    assert (Hc : Z.testbit (Z.lor (Z.shiftl 3 GPIO_TRG_TYPE_BIT_OFFSET)
                                  GPIO_TRG_LVL_BIT) n = false).
    { rewrite Z.lor_spec. unfold GPIO_TRG_LVL_BIT, GPIO_TRG_TYPE_BIT_OFFSET.
      rewrite BIT_testbit by lia.
      destruct Hn as [-> | Hn]; [reflexivity|].
      rewrite Z.shiftl_spec by lia.
      rewrite (Z.bits_above_log2 3 (n - 2))
        by (try lia; change (Z.log2 3) with 1; lia).
      apply Z.eqb_neq. lia. }
    rewrite Hc.
    assert (Htrg : Z.testbit (Z.shiftl trg 4) n = false).
    { destruct Hn as [-> | Hn].
      - rewrite Z.shiftl_spec by lia. now apply Z.testbit_neg_r.
      - rewrite Z.shiftl_spec by lia.
        destruct (Z.eq_dec trg 0) as [->|]; [apply Z.testbit_0_l|].
        replace trg with 1 by lia. apply testbit_1_high. lia. }
    assert (Hlvl : Z.testbit (Z.shiftl lvl 2) n = false).
    { destruct Hn as [-> | Hn].
      - rewrite Z.shiftl_spec by lia. now apply Z.testbit_neg_r.
      - rewrite Z.shiftl_spec by lia.
        apply Z.bits_above_log2; [lia|].
        apply Z.log2_lt_pow2; [lia|].
        apply Z.lt_le_trans with (2 ^ 2); [change (2 ^ 2) with 4; lia|].
        apply Z.pow_le_mono_r; lia. }
    rewrite Htrg, Hlvl. cbn [negb]. now rewrite andb_true_r, !orb_false_r.
Qed.

Lemma set_type_keeps_other_config_bits_witness :
  let r : regfile := fun _ _ => 0x42 in
  let d := {| irq := 50; hwirq := 18 |} in
  Z.testbit (pin_reg (regs_after (tegra_gpio_irq_set_type d
                                    IRQ_TYPE_LEVEL_HIGH r))
                     18 GPIO_ENB_CONFIG_REG) 6 = true.
Proof.
  intros r d.
  assert (Hd : 0 <= hwirq d < ngpio tegra_gpio_chip) by (cbv; split; congruence).
  assert (Hs : supported_sense (Z.land IRQ_TYPE_LEVEL_HIGH IRQ_TYPE_SENSE_MASK))
    by (right; right; right; left; reflexivity).
  assert (Hn : 6 = 1 \/ 5 <= 6 < 32) by (right; cbv; split; congruence).
  destruct (set_type_keeps_other_config_bits d IRQ_TYPE_LEVEL_HIGH r 6
              Hd Hs Hn) as [_ Hbit].
  etransitivity; [exact Hbit | reflexivity].
Defined.

(** X11. An accepted [tegra_gpio_irq_set_type] passes the trigger type, as
    requested, to the wake-event registry exactly when the pin has a slot
    in the wake table, and then under that slot; for a pin without a slot,
    and for a rejected type, the registry is not called. *)
Theorem set_type_tells_wake_registry d type r :
  0 <= hwirq d < ngpio tegra_gpio_chip ->
  let sense := Z.land type IRQ_TYPE_SENSE_MASK in
  let told :=
    filter is_wake_type (events (tegra_gpio_irq_set_type d type r)) in
  (supported_sense sense ->
   forall slot,
     0 <= slot < Z.of_nat (length tegra186_gpio_wakes) ->
     nth (Z.to_nat slot) tegra186_gpio_wakes (- EINVAL) = hwirq d ->
     told = [EvPmIrqSetWakeType slot type]) /\
  (supported_sense sense -> ~ In (hwirq d) tegra186_gpio_wakes ->
   told = []) /\
  (~ supported_sense sense -> told = []).
Proof.
  intros Hd sense told.
  assert (Hs : s32 (hwirq d) = hwirq d) by now apply s32_pin.
  assert (Hacc : supported_sense sense ->
                 told = if result (tegra186_gpio_to_wake (hwirq d) r) >=? 0
                        then [EvPmIrqSetWakeType
                                (result (tegra186_gpio_to_wake (hwirq d) r))
                                type]
                        else []).
  { intros Hsup. subst told.
    destruct (irq_set_type_switch_supported _ Hsup)
      as (trg & lvl & Hsw & _ & _).
    rewrite (irq_set_type_events d type r trg lvl Hsw), Hs.
    rewrite !filter_app, filter_wake_lookup by reflexivity.
    cbn [filter is_wake_type app].
    destruct (negb (Z.land type (Z.lor IRQ_TYPE_LEVEL_LOW _) =? 0));
      [|destruct (negb (Z.land type _ =? 0))];
      destruct (result _ >=? 0); reflexivity. }
  split; [|split].
  - intros Hsup slot Hslot Hnth. rewrite (Hacc Hsup).
    rewrite (tegra186_gpio_to_wake_slot slot) by (assumption || lia).
    rewrite result_pair. destruct (Z.geb_spec slot 0); [reflexivity | lia].
  - intros Hsup Hnot. rewrite (Hacc Hsup). unfold tegra186_gpio_to_wake.
    rewrite gpio_to_wake_from_miss by assumption. reflexivity.
  - intros Hno. subst told. unfold tegra_gpio_irq_set_type. fold sense.
    rewrite (irq_set_type_switch_default _ Hno). run.
    now apply filter_wake_lookup.
Qed.

Lemma set_type_tells_wake_registry_witness :
  let r : regfile := fun _ _ => 0 in
  filter is_wake_type
    (events (tegra_gpio_irq_set_type {| irq := 43; hwirq := 6 |}
               IRQ_TYPE_EDGE_RISING r))
  = [EvPmIrqSetWakeType 0 IRQ_TYPE_EDGE_RISING] /\
  filter is_wake_type
    (events (tegra_gpio_irq_set_type {| irq := 40; hwirq := 3 |}
               IRQ_TYPE_EDGE_RISING r))
  = [].
Proof.
  intros r.
  assert (H6 : 0 <= 6 < ngpio tegra_gpio_chip) by (cbv; split; congruence).
  assert (H3 : 0 <= 3 < ngpio tegra_gpio_chip) by (cbv; split; congruence).
  assert (Hs : supported_sense (Z.land IRQ_TYPE_EDGE_RISING IRQ_TYPE_SENSE_MASK))
    by (left; reflexivity).
  destruct (set_type_tells_wake_registry {| irq := 43; hwirq := 6 |}
              IRQ_TYPE_EDGE_RISING r H6) as (Hhit & _ & _).
  destruct (set_type_tells_wake_registry {| irq := 40; hwirq := 3 |}
              IRQ_TYPE_EDGE_RISING r H3) as (_ & Hmiss & _).
  split.
  - apply (Hhit Hs 0); [cbv; split; congruence | reflexivity].
  - apply (Hmiss Hs). cbv. intuition congruence.
Defined.

(** ** The wake table *)

(** X12. [tegra186_gpio_to_wake] is a first-match search of the wake
    table: on any argument it either finds no slot naming it and returns
    -EINVAL, or returns the lowest slot that names it; it never touches a
    register.  (The argument is not checked to be a pin: -EINVAL itself,
    the mark of an unused slot, is found in slot 6.) *)
Theorem to_wake_is_first_match gpio r :
  let x := tegra186_gpio_to_wake gpio r in
  regs_after x = r /\
  filter is_register_access (events x) = [] /\
  ((~ In gpio tegra186_gpio_wakes /\ result x = - EINVAL) \/
   (exists slot : nat,
      result x = Z.of_nat slot /\
      nth_error tegra186_gpio_wakes slot = Some gpio /\
      forall m, (m < slot)%nat -> nth_error tegra186_gpio_wakes m <> Some gpio))
  /\ result (tegra186_gpio_to_wake (- EINVAL) r) = 6.
Proof.
  intros x. subst x. unfold tegra186_gpio_to_wake.
  destruct (gpio_to_wake_from_quiet tegra186_gpio_wakes 0 gpio r) as [Hr He].
  split; [exact Hr|]. split; [exact He|]. split; [|reflexivity].
  destruct (in_dec Z.eq_dec gpio tegra186_gpio_wakes) as [Hin|Hnot].
  - right.
    assert (Hfirst : forall l : list Z, In gpio l ->
              exists n, nth_error l n = Some gpio /\
                        forall m, (m < n)%nat -> nth_error l m <> Some gpio).
    { induction l as [|w rest IH]; intros H; [contradiction|].
      destruct (Z.eq_dec w gpio) as [->|Hne].
      - exists 0%nat. split; [reflexivity|]. intros m Hm. lia.
      - destruct H as [H|H]; [contradiction|].
        destruct (IH H) as (n & Hn & Hlow). exists (S n). split; [exact Hn|].
        intros [|m] Hm; cbn; [congruence|]. apply Hlow. lia. }
    destruct (Hfirst _ Hin) as (n & Hn & Hlow). exists n.
    rewrite (gpio_to_wake_from_hit _ 0 n gpio r Hn Hlow).
    repeat split; assumption.
  - left. split; [exact Hnot|].
    now rewrite gpio_to_wake_from_miss.
Qed.

Lemma wake_pins_wired g :
  In g tegra186_gpio_wakes -> 0 <= g ->
  0 <= g < ngpio tegra_gpio_chip /\
  g mod 8 < valid_pins (cinfo (g / 8)) /\ 0 <= cont_id (cinfo (g / 8)).
Proof.
  intros Hin Hg.
  assert (H : wake_pins_wiredb tegra186_gpio_wakes = true)
    by (vm_compute; reflexivity).
  unfold wake_pins_wiredb in H. rewrite forallb_forall in H.
  specialize (H g Hin). apply orb_prop in H. destruct H as [H|H].
  - apply Z.ltb_lt in H. lia.
  - repeat (apply andb_prop in H; destruct H as [H ?]).
    repeat match goal with
           | H : (_ <? _) = true |- _ => apply Z.ltb_lt in H
           | H : (_ <=? _) = true |- _ => apply Z.leb_le in H
           end.
    lia.
Qed.

(** X13. Every pin for which [tegra186_gpio_to_wake] finds a slot is a
    wired pin of a present port: the accessibility check on it gets past
    the topology tests and consults the pin's security-configuration
    register. *)
Theorem wake_pins_pass_topology gpio r :
  0 <= gpio ->
  0 <= result (tegra186_gpio_to_wake gpio r) ->
  0 <= gpio < ngpio tegra_gpio_chip /\
  gpio mod 8 < valid_pins (cinfo (gpio / 8)) /\
  cont_id (cinfo (gpio / 8)) <> -1 /\
  events (is_gpio_accessible gpio r)
  = [EvReadl (reg_window gpio) (scr_addr gpio)].
Proof.
  intros Hg Hres.
  assert (Hin : In gpio tegra186_gpio_wakes).
  { destruct (in_dec Z.eq_dec gpio tegra186_gpio_wakes) as [Hin|Hnot];
      [exact Hin|].
    unfold tegra186_gpio_to_wake in Hres.
    rewrite gpio_to_wake_from_miss in Hres by assumption.
    cbv in Hres. congruence. }
  destruct (wake_pins_wired gpio Hin Hg) as (Hr & Hv & Hc).
  repeat split; try lia.
  rewrite is_gpio_accessible_eq, GPIO_PORT_div, GPIO_PIN_mod.
  destruct (Z.geb_spec (gpio mod 8) (valid_pins (cinfo (gpio / 8)))); [lia|].
  destruct (Z.ltb_spec (cont_id (cinfo (gpio / 8))) 0); [lia|].
  reflexivity.
Qed.

Lemma wake_pins_pass_topology_witness :
  events (is_gpio_accessible 6 (fun _ _ => 0)) = [EvReadl 0 0x2034].
Proof.
  assert (Hg : 0 <= 6) by (cbv; congruence).
  assert (Hres : 0 <= result (tegra186_gpio_to_wake 6 (fun _ _ => 0)))
    by (cbv; congruence).
  destruct (wake_pins_pass_topology 6 (fun _ _ => 0) Hg Hres)
    as (_ & _ & _ & He).
  etransitivity; [exact He | reflexivity].
Defined.

(** ** Debounce threshold *)

(** X14. The threshold [tegra_gpio_set_debounce] stores is the whole
    number of milliseconds that covers [debounce] microseconds, as a full
    32-bit word (it is not cut to eight bits), for every [debounce] up to
    2^32 - 1000; for the 999 larger values of an [unsigned] the addition in
    [DIV_ROUND_UP] wraps around and the threshold stored is 0. *)
Theorem debounce_threshold_rounding chip gpio debounce r :
  0 <= gpio < ngpio tegra_gpio_chip ->
  0 <= debounce < 2 ^ 32 ->
  let dbc := pin_reg (regs_after (tegra_gpio_set_debounce chip gpio debounce r))
               gpio GPIO_DBC_THRES_REG in
  (debounce <= 2 ^ 32 - 1000 ->
   1000 * (dbc - 1) < debounce <= 1000 * dbc) /\
  (2 ^ 32 - 1000 < debounce -> dbc = 0).
Proof.
  intros Hg Hd dbc.
  assert (Hdbc : dbc = u32 (DIV_ROUND_UP debounce 1000)).
  { subst dbc. unfold tegra_gpio_set_debounce. run.
    now rewrite pin_reg_set_same, u32_idem. }
  rewrite Hdbc. unfold DIV_ROUND_UP. split; intros H.
  - rewrite (u32_small (debounce + 1000 - 1)) by lia.
    pose proof (Z.div_mod (debounce + 1000 - 1) 1000 ltac:(lia)) as Hdm.
    pose proof (Z.mod_pos_bound (debounce + 1000 - 1) 1000 ltac:(lia)) as Hm.
    rewrite u32_small; [lia|]. split.
    + apply Z.div_pos; lia.
    + apply Z.div_lt_upper_bound; lia.
  - assert (Hw : u32 (debounce + 1000 - 1) = debounce + 1000 - 1 - 2 ^ 32).
    { unfold u32. symmetry. apply Z.mod_unique with 1; lia. }
    rewrite Hw, Z.div_small by lia. reflexivity.
Qed.

Lemma debounce_threshold_rounding_witness :
  let r : regfile := fun _ _ => 0 in
  pin_reg (regs_after (tegra_gpio_set_debounce tegra_gpio_chip 18 4294967295 r))
          18 GPIO_DBC_THRES_REG = 0 /\
  1000 * (pin_reg (regs_after (tegra_gpio_set_debounce tegra_gpio_chip 18
                                 256001 r)) 18 GPIO_DBC_THRES_REG - 1)
  < 256001.
Proof.
  intros r.
  assert (Hg : 0 <= 18 < ngpio tegra_gpio_chip) by (cbv; split; congruence).
  assert (H1 : 0 <= 4294967295 < 2 ^ 32) by (cbv; split; congruence).
  assert (H2 : 0 <= 256001 < 2 ^ 32) by (cbv; split; congruence).
  destruct (debounce_threshold_rounding tegra_gpio_chip 18 4294967295 r Hg H1)
    as [_ Hwrap].
  destruct (debounce_threshold_rounding tegra_gpio_chip 18 256001 r Hg H2)
    as [Hceil _].
  split.
  - apply Hwrap. cbv. congruence.
  - apply Hceil. cbv. congruence.
Defined.

(** ** Accessibility is out of the driver's reach *)

Lemma scr_apart p q :
  0 <= p < MAX_PORTS -> 0 <= q < MAX_PORTS -> scr_apartb p q = true.
Proof.
  intros Hp Hq.
  assert (H : forallb (fun q => scr_apartb p q) (map Z.of_nat (seq 0 32))
              = true).
  { apply (below_forallb
             (fun p => forallb (fun q => scr_apartb p q)
                               (map Z.of_nat (seq 0 32))) 32);
      [vm_compute; reflexivity | exact Hp]. }
  now apply (below_forallb (fun q => scr_apartb p q) 32).
Qed.

Lemma scr_reg_set r gpio reg v g :
  0 <= gpio < ngpio tegra_gpio_chip -> 0 <= g < ngpio tegra_gpio_chip ->
  0 <= reg <= GPIO_REG_DIFF ->
  scr_reg (regfile_set r (reg_window gpio) (reg_addr gpio reg) v) g
  = scr_reg r g.
Proof.
  intros Hgpio Hg Hreg. unfold scr_reg. rewrite reg_value_set.
  destruct (pin_split gpio Hgpio) as [Hp Hpin].
  destruct (pin_split g Hg) as [Hq Hqin].
  pose proof (scr_apart _ _ Hp Hq) as Hap. unfold scr_apartb in Hap.
  pose proof (u32_range (scr_offset (cinfo (g / 8)))) as Hs.
  unfold GPIO_REG_DIFF, GPIO_SCR_DIFF, GPIO_SCR_REG in *.
  assert (Ha : reg_addr gpio reg
               = reg_offset (cinfo (gpio / 8)) + gpio mod 8 * 32 + reg)
    by (apply reg_addr_plain; [assumption | lia]).
  assert (Hsa : scr_addr g
                = u32 (scr_offset (cinfo (g / 8))) + g mod 8 * 8 + 4).
  { unfold scr_addr. now rewrite GPIO_PORT_div, GPIO_PIN_mod. }
  rewrite !reg_window_plain, Ha, Hsa.
  destruct (Z.eqb_spec (reg_index (cinfo (g / 8)))
                       (reg_index (cinfo (gpio / 8)))) as [Ew|Ew];
    [|reflexivity].
  destruct (Z.eqb_spec (u32 (scr_offset (cinfo (g / 8))) + g mod 8 * 8 + 4)
                       (reg_offset (cinfo (gpio / 8)) + gpio mod 8 * 32 + reg))
    as [Ea|Ea]; [|reflexivity].
  exfalso. rewrite <- Ew, Z.eqb_refl in Hap. cbn [negb orb] in Hap.
  apply orb_prop in Hap. destruct Hap as [H|H]; apply Z.ltb_lt in H; lia.
Qed.

Lemma accessible_same_scr r r' g :
  scr_reg r' g = scr_reg r g ->
  result (is_gpio_accessible g r') = result (is_gpio_accessible g r).
Proof.
  intros H. rewrite !is_gpio_accessible_eq.
  fold (scr_reg r' g) (scr_reg r g). rewrite H.
  destruct (_ >=? _); [reflexivity|]. now destruct (_ <? 0).
Qed.

Ltac frame_scr :=
  rewrite ?scr_reg_set
    by (assumption || (cbv; split; congruence)); try reflexivity.

Lemma irq_set_type_scr d type r g :
  0 <= hwirq d < ngpio tegra_gpio_chip -> 0 <= g < ngpio tegra_gpio_chip ->
  scr_reg (regs_after (tegra_gpio_irq_set_type d type r)) g = scr_reg r g.
Proof.
  intros Hd Hg. unfold tegra_gpio_irq_set_type.
  destruct (gpio_to_wake_from_quiet tegra186_gpio_wakes 0 (s32 (hwirq d)) r)
    as [Hr _].
  fold (tegra186_gpio_to_wake (s32 (hwirq d))) in Hr.
  destruct (irq_set_type_switch _) as [[trg lvl]|].
  - unfold tegra_gpio_enable, irq_set_handler_locked,
      tegra_pm_irq_set_wake_type.
    run. rewrite Hr, (u32_pin _ Hd).
    destruct (result _ >=? 0);
      destruct (negb (Z.land type (Z.lor IRQ_TYPE_LEVEL_LOW _) =? 0));
      try destruct (negb (Z.land type _ =? 0));
      run; frame_scr.
  - run. now rewrite Hr.
Qed.

(** X15. No operation of the driver can change whether a pin is
    accessible: the security-configuration registers lie apart from every
    register the operations store to (including the stray store of
    [tegra_gpio_set_debounce] 0x20 bytes past the configuration register),
    so after set-value, either direction change, set-debounce, free, ack,
    mask, unmask or set-type on any pin, [is_gpio_accessible] answers for
    every pin what it answered before. *)
Theorem operations_keep_accessibility env chip gpio value debounce type d r g :
  0 <= gpio < ngpio tegra_gpio_chip ->
  0 <= hwirq d < ngpio tegra_gpio_chip ->
  0 <= g < ngpio tegra_gpio_chip ->
  Forall (fun r' => result (is_gpio_accessible g r')
                    = result (is_gpio_accessible g r))
    [ regs_after (tegra_gpio_set chip gpio value r);
      regs_after (tegra_gpio_direction_input env chip gpio r);
      regs_after (tegra_gpio_direction_output env chip gpio value r);
      regs_after (tegra_gpio_set_debounce chip gpio debounce r);
      regs_after (tegra_gpio_free chip gpio r);
      regs_after (tegra_gpio_irq_ack d r);
      regs_after (tegra_gpio_irq_mask d r);
      regs_after (tegra_gpio_irq_unmask d r);
      regs_after (tegra_gpio_irq_set_type d type r) ].
Proof.
  intros Hgpio Hd Hg.
  repeat (apply Forall_cons; [apply accessible_same_scr|]);
    [ | | | | | | | | | apply Forall_nil].
  - unfold tegra_gpio_set. run. frame_scr.
  - rewrite direction_input_regs.
    unfold program_direction_input, set_gpio_direction_mode, tegra_gpio_enable.
    run. rewrite (u32_pin _ Hgpio). frame_scr.
  - rewrite direction_output_regs.
    unfold program_direction_output, tegra_gpio_set, set_gpio_direction_mode,
      tegra_gpio_enable.
    run. rewrite (u32_pin _ Hgpio). frame_scr.
  - unfold tegra_gpio_set_debounce. run.
    change GPIO_DEB_FUNC_BIT with GPIO_REG_DIFF. frame_scr.
  - unfold tegra_gpio_free, tegra_gpio_disable, pinctrl_free_gpio.
    run. rewrite (u32_pin _ Hgpio). frame_scr.
  - unfold tegra_gpio_irq_ack. run. rewrite (u32_pin _ Hd). frame_scr.
  - rewrite irq_mask_regs by assumption. frame_scr.
  - rewrite irq_unmask_regs by assumption. frame_scr.
  - now apply irq_set_type_scr.
Qed.

Lemma operations_keep_accessibility_witness :
  let r : regfile := fun _ a => if a =? 0x2034 then 0x18000202 else 0 in
  result (is_gpio_accessible 6
            (regs_after (tegra_gpio_set_debounce tegra_gpio_chip 7 1000 r)))
  = true.
Proof.
  intros r.
  assert (H7 : 0 <= 7 < ngpio tegra_gpio_chip) by (cbv; split; congruence).
  assert (H6 : 0 <= 6 < ngpio tegra_gpio_chip) by (cbv; split; congruence).
  pose proof (operations_keep_accessibility quiet_env tegra_gpio_chip 7 1 1000
                IRQ_TYPE_EDGE_RISING {| irq := 0; hwirq := 7 |} r 6 H7 H7 H6)
    as H.
  rewrite Forall_forall in H.
  etransitivity; [apply H; cbn [In]; tauto | reflexivity].
Defined.

(** ** The port map of the chained handler *)

Lemma port_map_exactb_spec ctrl port_map k p :
  port_map_exactb ctrl port_map = true ->
  0 <= k < 8 -> 0 <= p < 32 ->
  (nth (Z.to_nat k) port_map (-1) = p <->
   cont_id (cinfo p) = ctrl /\ cont_index (cinfo p) = k).
Proof.
  intros H Hk Hp. unfold port_map_exactb in H.
  pose proof (below_forallb _ 8 H k Hk) as H1. cbv beta in H1.
  pose proof (below_forallb _ 32 H1 p Hp) as H2. cbv beta in H2.
  apply Bool.eqb_prop in H2.
  rewrite <- Z.eqb_eq, H2, andb_true_iff, !Z.eqb_eq. reflexivity.
Qed.

Lemma port_map_of_exact ctrl :
  0 <= ctrl < MAX_GPIO_CONTROLLERS ->
  port_map_exactb ctrl (port_map_of ctrl) = true.
Proof.
  intros Hc.
  apply (below_forallb (fun c => port_map_exactb c (port_map_of c)) 7);
    [vm_compute; reflexivity | exact Hc].
Qed.

(** X16. The port map the chained handler builds for a controller is the
    inverse of the topology table: slot [k] holds port [p] exactly when [p]
    is the port with that controller id and index [k] within it.  So no two
    ports of a controller compete for a slot and none is left out. *)
Theorem port_map_inverts_topology ctrl k p :
  0 <= ctrl < MAX_GPIO_CONTROLLERS ->
  0 <= k < MAX_GPIO_PORTS ->
  0 <= p < MAX_PORTS ->
  (nth (Z.to_nat k) (port_map_of ctrl) (-1) = p <->
   cont_id (cinfo p) = ctrl /\ cont_index (cinfo p) = k).
Proof.
  intros Hc Hk Hp.
  exact (port_map_exactb_spec ctrl (port_map_of ctrl) k p
           (port_map_of_exact ctrl Hc) Hk Hp).
Qed.

Lemma port_map_inverts_topology_witness :
  nth (Z.to_nat 4) (port_map_of 0) (-1) = TEGRA_GPIO_BANK_ID_I.
Proof.
  apply (port_map_inverts_topology 0 4 TEGRA_GPIO_BANK_ID_I);
    cbv; split; congruence.
Defined.

(** ** The chained handler: what is dispatched and what is accessed *)

Lemma run_handlers_quiet env pins r :
  quiet_handlers env -> run_handlers env pins r = r.
Proof.
  intros Hq. unfold run_handlers. revert r.
  induction pins as [|g pins IH]; intros r; [reflexivity|].
  cbn [fold_left]. now rewrite Hq.
Qed.

Lemma bits_from_in b pin size :
  pin <= b < pin + Z.of_nat size -> In b (bits_from pin size).
Proof.
  revert pin. induction size as [|size IH]; intros pin H; [lia|].
  cbn [bits_from]. destruct (Z.eq_dec pin b) as [->|Hne]; [now left|].
  right. apply IH. lia.
Qed.

Lemma pending_pins_iff port val g :
  In g (pending_pins port val) <->
  g / 8 = port /\ 0 <= g mod 8 < 8 /\ Z.testbit val (g mod 8) = true.
Proof.
  split; [apply pending_pins_in|].
  intros (Hp & Hb & Ht). unfold pending_pins. apply in_map_iff.
  exists (g mod 8). split.
  - subst port. pose proof (Z.div_mod g 8 ltac:(lia)). lia.
  - apply filter_In. split; [apply bits_from_in; lia | exact Ht].
Qed.

Lemma mapped_ports_cons p rest :
  mapped_ports (p :: rest) =
  if p =? -1 then mapped_ports rest else p :: mapped_ports rest.
Proof. unfold mapped_ports. cbn [filter]. now destruct (p =? -1). Qed.

Lemma scan_ports_quiet env ctrl k port_map r :
  quiet_handlers env ->
  port_map_checkb ctrl k port_map = true ->
  dispatched (events (scan_ports env port_map r)) =
    flat_map (fun p => pending_pins p (int_status r p))
             (mapped_ports port_map) /\
  regs_after (scan_ports env port_map r) = r.
Proof.
  intros Hq. revert k r.
  induction port_map as [|p rest IH]; intros k r Hok; [now split|].
  cbn [port_map_checkb] in Hok. apply andb_prop in Hok.
  destruct Hok as [Hp Hrest].
  rewrite scan_ports_cons, mapped_ports_cons.
  cbn [scan_ports]. rewrite regs_after_bind.
  destruct (Z.eqb_spec p (-1)) as [->|Hne].
  - rewrite scan_port_absent, regs_after_pair. cbn [events snd dispatched flat_map app].
    exact (IH (k + 1) r Hrest).
  - apply orb_prop in Hp. destruct Hp as [Hp|Hp]; [discriminate|].
    assert (Hrange : 0 <= p < MAX_PORTS).
    { repeat (apply andb_prop in Hp; destruct Hp as [Hp ?]). lia. }
    destruct (scan_port_run env p r Hrange) as [Hd Hr].
    rewrite Hd, Hr, run_handlers_quiet by assumption.
    destruct (IH (k + 1) r Hrest) as [IHd IHr].
    rewrite IHd, IHr. now split.
Qed.

Lemma mapped_ports_in ctrl port_map p :
  port_map_checkb ctrl 0 port_map = true ->
  port_map_exactb ctrl port_map = true ->
  0 <= ctrl < MAX_GPIO_CONTROLLERS ->
  (In p (mapped_ports port_map) <->
   0 <= p < MAX_PORTS /\ cont_id (cinfo p) = ctrl).
Proof.
  intros Hok Hex Hc. unfold mapped_ports. rewrite filter_In. split.
  - intros [Hin Hne]. apply negb_true_iff, Z.eqb_neq in Hne.
    assert (Hgen : forall pm k, port_map_checkb ctrl k pm = true ->
              In p pm -> 0 <= p < MAX_PORTS /\ cont_id (cinfo p) = ctrl).
    { induction pm as [|q rest IH]; intros k Hk Hq; [contradiction|].
      cbn [port_map_checkb] in Hk. apply andb_prop in Hk.
      destruct Hk as [Hq1 Hq2]. destruct Hq as [->|Hq]; [|now apply (IH (k + 1))].
      apply orb_prop in Hq1. destruct Hq1 as [Hq1|Hq1];
        [apply Z.eqb_eq in Hq1; contradiction|].
      repeat (apply andb_prop in Hq1; destruct Hq1 as [Hq1 ?]). lia. }
    exact (Hgen port_map 0 Hok Hin).
  - intros [Hp Hid].
    assert (Hne : p <> -1) by lia.
    destruct (cinfo_ok p Hp) as [_ _ _ _ Hpres].
    destruct (Hpres ltac:(change MAX_GPIO_CONTROLLERS with 7 in Hc; lia))
      as (_ & Hidx & _).
    change MAX_GPIO_PORTS with 8 in Hidx. change MAX_PORTS with 32 in Hp.
    pose proof (proj2 (port_map_exactb_spec ctrl port_map
                         (cont_index (cinfo p)) p Hex Hidx Hp)
                      (conj Hid eq_refl)) as Hnth.
    split; [|now apply negb_true_iff, Z.eqb_neq].
    rewrite <- Hnth. apply nth_In.
    destruct (Nat.lt_ge_cases (Z.to_nat (cont_index (cinfo p)))
                              (length port_map)) as [Hlt|Hge]; [exact Hlt|].
    rewrite nth_overflow in Hnth by assumption. congruence.
Qed.

Lemma bracket_regs (m : M unit) r :
  regs_after ((emit EvChainedIrqEnter ;; m ;; emit EvChainedIrqExit) r)
  = regs_after (m r).
Proof. now rewrite !regs_after_bind, !emit_eq. Qed.

(** X17. With handlers that leave the registers alone, one run of the
    chained handler of a controller dispatches a pin exactly when the pin
    belongs to a port of that controller and its bit is set in the port's
    pending-status register; the handler itself leaves the register file
    as it found it. *)
Theorem chained_handler_dispatches_pending env tg_cont r g :
  0 <= controller tg_cont < MAX_GPIO_CONTROLLERS ->
  quiet_handlers env ->
  let x := tegra_gpio_irq_handler_desc env tg_cont r in
  regs_after x = r /\
  (In g (dispatched (events x)) <->
   0 <= g < ngpio tegra_gpio_chip /\
   cont_id (cinfo (g / 8)) = controller tg_cont /\
   Z.testbit (int_status r (g / 8)) (g mod 8) = true).
Proof.
  intros Hc Hq x. subst x.
  assert (Hregs : regs_after (tegra_gpio_irq_handler_desc env tg_cont r) =
                  regs_after (scan_ports env
                                (port_map_of (controller tg_cont)) r))
    by exact (bracket_regs
                (scan_ports env (port_map_of (controller tg_cont))) r).
  rewrite Hregs, handler_dispatched. clear Hregs.
  pose proof (port_map_of_ok (controller tg_cont) Hc) as Hok.
  pose proof (port_map_of_exact (controller tg_cont) Hc) as Hex.
  revert Hok Hex. generalize (port_map_of (controller tg_cont)).
  intros pm Hok Hex.
  destruct (scan_ports_quiet env (controller tg_cont) 0 pm r Hq Hok)
    as [Hd Hr].
  split; [exact Hr|].
  rewrite Hd, in_flat_map. split.
  - intros (p & Hp & Hg).
    destruct (proj1 (mapped_ports_in (controller tg_cont) pm p Hok Hex Hc) Hp)
      as [Hrange Hid].
    apply pending_pins_iff in Hg. destruct Hg as (Hdiv & Hmod & Hbit).
    subst p. change (ngpio tegra_gpio_chip) with 256.
    change MAX_PORTS with 32 in Hrange.
    pose proof (Z.div_mod g 8 ltac:(lia)).
    repeat split; (lia || assumption).
  - intros (Hg & Hid & Hbit). exists (g / 8).
    destruct (pin_split g Hg) as [Hp Hmod]. split.
    + exact (proj2 (mapped_ports_in (controller tg_cont) pm (g / 8)
                      Hok Hex Hc) (conj Hp Hid)).
    + apply pending_pins_iff. repeat split; (lia || assumption).
Qed.

Lemma chained_handler_dispatches_pending_witness :
  let r : regfile := fun _ a => if a =? 0x13304 then 0x91 else 0 in
  In 20 (dispatched (events (tegra_gpio_irq_handler_desc quiet_env
                               {| controller := 3; ctrl_irq := 0 |} r))).
Proof.
  intros r.
  assert (Hc : 0 <= controller {| controller := 3; ctrl_irq := 0 |}
               < MAX_GPIO_CONTROLLERS) by (cbv; split; congruence).
  assert (Hq : quiet_handlers quiet_env) by (intros g r'; reflexivity).
  destruct (chained_handler_dispatches_pending quiet_env
              {| controller := 3; ctrl_irq := 0 |} r 20 Hc Hq) as [_ H].
  apply H. repeat split; cbv; congruence.
Defined.







Lemma fill_port_map_none ctrl table i port_map :
  Forall (fun e => cont_id e <> ctrl) table ->
  fill_port_map ctrl i table port_map = port_map.
Proof.
  revert i. induction table as [|e rest IH]; intros i H; [reflexivity|].
  cbn [fill_port_map]. apply Forall_cons_iff in H. destruct H as [He Hrest].
  destruct (Z.eqb_spec (cont_id e) ctrl); [contradiction|].
  now apply IH.
Qed.

Lemma cont_ids_bounded e :
  In e tegra_gpio_cinfo -> -1 <= cont_id e < MAX_GPIO_CONTROLLERS.
Proof.
  intros Hin.
  assert (H : cont_ids_boundedb tegra_gpio_cinfo = true)
    by (vm_compute; reflexivity).
  unfold cont_ids_boundedb in H. rewrite forallb_forall in H.
  specialize (H e Hin). apply andb_prop in H. destruct H as [H1 H2].
  apply Z.leb_le in H1. apply Z.ltb_lt in H2. lia.
Qed.

(** X19. For a controller id that no port carries (below -1, or 7 and
    above: a bank interrupt beyond the seven controllers of the table) the
    chained handler maps no port: it enters and exits, loads nothing and
    dispatches nothing. *)
Theorem chained_handler_unknown_controller env tg_cont r :
  controller tg_cont < -1 \/ MAX_GPIO_CONTROLLERS <= controller tg_cont ->
  tegra_gpio_irq_handler_desc env tg_cont r
  = (tt, r, [EvChainedIrqEnter; EvChainedIrqExit]).
Proof.
  intros Hc.
  assert (Hpm : port_map_of (controller tg_cont)
                = repeat (-1) (Z.to_nat MAX_GPIO_PORTS)).
  { assert (Hnone : Forall (fun e => cont_id e <> controller tg_cont)
                           tegra_gpio_cinfo).
    { apply Forall_forall. intros e He.
      pose proof (cont_ids_bounded e He). lia. }
    exact (fill_port_map_none (controller tg_cont) tegra_gpio_cinfo 0
             (repeat (-1) (Z.to_nat MAX_GPIO_PORTS)) Hnone). }
  change (tegra_gpio_irq_handler_desc env tg_cont r)
    with ((emit EvChainedIrqEnter ;;
           scan_ports env (port_map_of (controller tg_cont)) ;;
           emit EvChainedIrqExit) r).
  rewrite Hpm. reflexivity.
Qed.

Lemma chained_handler_unknown_controller_witness :
  tegra_gpio_irq_handler_desc quiet_env {| controller := 7; ctrl_irq := 0 |}
    (fun _ _ => 0xFF)
  = (tt, fun _ _ => 0xFF, [EvChainedIrqEnter; EvChainedIrqExit]).
Proof.
  apply (chained_handler_unknown_controller quiet_env
           {| controller := 7; ctrl_irq := 0 |} (fun _ _ => 0xFF)).
  right. cbv. congruence.
Defined.

(** ** The debugfs dump *)

Lemma is_gpio_accessible_reads_only offset r :
  regs_after (is_gpio_accessible offset r) = r /\
  filter is_writel (events (is_gpio_accessible offset r)) = [].
Proof.
  rewrite is_gpio_accessible_eq.
  destruct (_ >=? _); [now split|]. destruct (_ <? 0); now split.
Qed.

Lemma dbg_loop_run r n :
  forall i st s,
    0 <= i -> i + Z.of_nat n <= 2 ^ 32 ->
    let x := dbg_gpio_show_loop n i st s r in
    result x = s ++ flat_map (dbg_entry r)
                      (combine (bits_from i n) (dbg_label_states n i st)) /\
    regs_after x = r /\
    filter is_writel (events x) = [].
Proof.
  induction n as [|n IH]; intros i st s Hi Hn x; subst x.
  - cbn. now rewrite app_nil_r.
  - cbn [dbg_gpio_show_loop bits_from dbg_label_states combine flat_map].
    rewrite (u32_small i) by lia.
    destruct (is_gpio_accessible_reads_only i r) as [Hr Hw].
    rewrite result_bind, regs_after_bind, events_bind, filter_app, Hr, Hw.
    cbn [app]. unfold dbg_entry at 1.
    destruct (result (is_gpio_accessible i r)).
    + run. cbn [filter is_writel app].
      destruct (IH (i + 1) (dbg_label_step i st)
                  (s ++ [SeqPin (fst (fst (dbg_label_step i st)))
                                (snd (fst (dbg_label_step i st)))
                                (Z.rem i 8)
                                (pin_reg r i GPIO_ENB_CONFIG_REG)
                                (pin_reg r i GPIO_DBC_THRES_REG)
                                (pin_reg r i GPIO_INPUT_REG)
                                (pin_reg r i GPIO_OUT_CTRL_REG)
                                (pin_reg r i GPIO_OUT_VAL_REG)
                                (pin_reg r i GPIO_INT_CLEAR_REG)])
                  ltac:(lia) ltac:(lia)) as (IH1 & IH2 & IH3).
      unfold pin_reg in IH1, IH2, IH3.
      rewrite IH1, IH2, IH3, <- app_assoc. repeat split.
    + destruct (IH (i + 1) (dbg_label_step i st) s ltac:(lia) ltac:(lia))
        as (IH1 & IH2 & IH3).
      rewrite IH1, IH2, IH3. repeat split.
Qed.

Lemma dbg_labels_follow_ports :
  dbg_label_states (Z.to_nat TOTAL_GPIOS) 0 (" "%char, "A"%char, 0)
  = map dbg_label_at (bits_from 0 (Z.to_nat TOTAL_GPIOS)).
Proof. vm_compute. reflexivity. Qed.

Lemma combine_map_r {A B : Type} (f : A -> B) (l : list A) :
  combine l (map f l) = map (fun a => (a, f a)) l.
Proof. induction l as [|a l IH]; [reflexivity|]. cbn. now rewrite IH. Qed.

Lemma dbg_entries_lines r l :
  Forall (fun i => 0 <= i) l ->
  flat_map (dbg_entry r) (map (fun i => (i, dbg_label_at i)) l)
  = map (dbg_line r) (filter (fun i => result (is_gpio_accessible i r)) l).
Proof.
  induction l as [|i l IH]; intros H; [reflexivity|].
  apply Forall_cons_iff in H. destruct H as [Hi Hl].
  cbn [map flat_map filter]. rewrite (IH Hl). unfold dbg_entry at 1.
  destruct (result (is_gpio_accessible i r)); [|reflexivity].
  cbn [app map]. f_equal. unfold dbg_line, dbg_label_at. cbn [fst snd].
  now rewrite Z.rem_mod_nonneg by lia.
Qed.

(** X20. [dbg_gpio_show] returns 0 and appends to the seq_file the header
    and then, for the pins 0 to 252 in ascending order, one line for each
    pin that passes the accessibility check and nothing for the others;
    the line carries the name of the pin's port (a blank and A to Z for
    the first 26 ports, then AA, BB, up to FF), the pin-in-port and the
    pin's six registers.  The dump stores to no register. *)
Theorem debug_dump_lists_accessible_pins s r :
  let x := dbg_gpio_show s r in
  result x =
    (0, s ++ SeqHeader
          :: map (dbg_line r)
                 (filter (fun i => result (is_gpio_accessible i r))
                         (bits_from 0 (Z.to_nat TOTAL_GPIOS)))) /\
  regs_after x = r /\
  filter is_writel (events x) = [].
Proof.
  intros x. subst x. unfold dbg_gpio_show.
  destruct (dbg_loop_run r (Z.to_nat TOTAL_GPIOS) 0 (" "%char, "A"%char, 0)
              (s ++ [SeqHeader]) ltac:(lia) ltac:(cbv; congruence))
    as (H1 & H2 & H3).
  split; [|split].
  - rewrite result_bind, H1, ret_eq, result_pair. f_equal.
    rewrite <- app_assoc. cbn [app]. do 2 f_equal.
    rewrite dbg_labels_follow_ports, combine_map_r.
    apply dbg_entries_lines. apply Forall_forall.
    intros i Hi. apply in_bits_from in Hi. lia.
  - now rewrite regs_after_bind, H2.
  - now rewrite events_bind, filter_app, H3.
Qed.
